(** * doxie: the ingestion write path of [src/server/processor.ts]

    A shallow embedding of the job scheduler, the four source extractors
    and the segmentation hooks of [processor.ts], with the properties of
    the specification stated over it.

    Conventions of the embedding.
    - JavaScript strings are [string]: a character stands for a code
      unit from 0 to 255, and [Js.trim] removes the white space
      characters of that range.  [cleanUpText] and
      [extractDataWithXPath], whose results depend on the whole white
      space class of the engine, are embedded over sequences of UTF-16
      code units with that class written out; [toLowerCase] is an
      interface of the engine.
    - JavaScript arrays are [list]s in array order: [push] appends at the
      end and [pop] removes the last element.
    - [number[]] embeddings are lists of binary64 floats.  They are only
      moved around by this file.
    - The tokenizer ([Embedder.tokenize], js-tiktoken) and the character
      splitter ([RecursiveCharacterTextSplitter], langchain) are imported
      packages: they are interfaces here, with sample instances further
      down that are used to run the code on concrete inputs.
    - The segmentation callbacks are embedded as functions of the
      document; [Embedder.embedDocuments], which runs them on each
      document, belongs to [embedder.ts].
    - Code that can throw returns a [result]; a call to the job store
      that rejects returns [None].
    - The collections of the document database ([database.ts]) and of the
      vector store are finite maps keyed by id. *)

From Stdlib Require Import Ascii String PrimFloat.
From stdpp Require Import base option list strings pretty gmap.
From Equations Require Import Equations.

Set Default Proof Using "Type".

(** ** JavaScript string primitives *)

Module Js.

Definition LF : string := String "010"%char "".

(** [s.length > 0] *)
Definition nonempty (s : string) : bool :=
  match s with "" => false | String _ _ => true end.

(** [s.split(sep)] for a one character separator: never the empty list. *)
Fixpoint split (sep : ascii) (s : string) : list string :=
  match s with
  | "" => [""]
  | String a s' =>
      if Ascii.eqb a sep then "" :: split sep s'
      else match split sep s' with
           | h :: t => String a h :: t
           | [] => [String a ""]
           end
  end.

(** [arr.join(sep)] *)
Definition join (sep : string) (arr : list string) : string :=
  String.concat sep arr.

(** What [trim] removes among the characters that a [string] holds,
    the code units 0 to 255: TAB, LF, VT, FF, CR, the space and the
    no-break space U+00A0. *)
Definition isWhiteSpace (a : ascii) : bool :=
  Ascii.is_space a || Ascii.eqb a "160".

Fixpoint trimStart (s : string) : string :=
  match s with
  | "" => ""
  | String a s' => if isWhiteSpace a then trimStart s' else s
  end.

Definition trimEnd (s : string) : string :=
  String.rev (trimStart (String.rev s)).

(** [s.trim()] *)
Definition trim (s : string) : string := trimEnd (trimStart s).

Fixpoint drop (n : nat) (s : string) : string :=
  match n, s with
  | 0, _ => s
  | S _, "" => ""
  | S n', String _ s' => drop n' s'
  end.

(** [s.replace(pat, rep)] with a string pattern: the first occurrence
    only, the string unchanged when there is none. *)
Fixpoint replace (pat rep s : string) : string :=
  if String.prefix pat s then rep +:+ drop (String.length pat) s
  else match s with
       | "" => ""
       | String a s' => String a (replace pat rep s')
       end.

(** [s.endsWith(suffix)] *)
Definition endsWith (suffix s : string) : bool :=
  String.prefix (String.rev suffix) (String.rev s).

(** [s.toLowerCase()] is the engine's: it follows the Unicode case
    mapping, of which nothing is assumed here. *)
Class Casing : Type := toLowerCase : string → string.

(** A thrown value: an [Error] with its message and optional stack, or
    any other value, kept as its JSON text. *)
Inductive thrown : Type :=
| Error (message : string) (stack : option string)
| Other (json : string).

Inductive result (A : Type) : Type :=
| Ok (a : A)
| Throw (e : thrown).
Arguments Ok {A} a.
Arguments Throw {A} e.

Definition bind {A B} (r : result A) (k : A → result B) : result B :=
  match r with
  | Ok a => k a
  | Throw e => Throw e
  end.

(** [f] run on each element in turn, the results collected; the first
    failure ends the run. *)
Fixpoint forEach {A B} (f : A → result B) (xs : list A) : result (list B) :=
  match xs with
  | [] => Ok []
  | x :: xs' =>
      bind (f x) (λ y, bind (forEach f xs') (λ ys, Ok (y :: ys)))
  end.

End Js.

#[global] Instance result_ret : MRet Js.result := @Js.Ok.
#[global] Instance result_bind : MBind Js.result := λ A B k r, Js.bind r k.

(** The stack that the engine records when an [Error] is constructed. *)
Class Engine : Type := captureStack : string → option string.

(** [new Error(message)] *)
Definition newError `{Engine} (message : string) : Js.thrown :=
  Js.Error message (captureStack message).

(** ** Documents and segments ([common/api]) *)

Record EmbedderDocumentSegment : Type := mkSegment {
  seg_text : string;
  seg_tokenCount : nat;
  seg_embedding : list float
}.

Record EmbedderDocument : Type := mkDocument {
  doc_uri : string;
  doc_title : string;
  doc_text : string;
  doc_segments : list EmbedderDocumentSegment
}.

(** ** The imported tokenizer and splitter *)

(** [Embedder.tokenize(text)]: the token ids of a text. *)
Class Tokenizer : Type := tokenize : string → list nat.

(** [new RecursiveCharacterTextSplitter({chunkSize, chunkOverlap}).splitText] *)
Class TextSplitter : Type := splitText : nat → nat → string → list string.

(** [countHashAtBeginning]: the length of the match of [/^#+/]. *)
Fixpoint countHashAtBeginning (line : string) : nat :=
  match line with
  | String "#"%char rest => S (countHashAtBeginning rest)
  | _ => 0
  end.

Section Segmenter.
Context `{Tokenizer} `{TextSplitter}.

(** [recursiveSplit(doc, chunkSize, chunkOverlap)]: the new value of
    [doc.segments]. *)
Definition recursiveSplit (doc : EmbedderDocument) (chunkSize chunkOverlap : nat)
  : list EmbedderDocumentSegment :=
  (λ split, mkSegment split (length (tokenize split)) [])
    <$> splitText chunkSize chunkOverlap (doc_text doc).

End Segmenter.

(** ** Markdown archives: the heading-aware split

    The callback that [MarkdownZipProccessor.process] hands to
    [embedDocuments] (lines 266-327). *)

Module MarkdownZip.
Section Hook.
Context `{Tokenizer} `{TextSplitter}.

(** The locals of the callback that the [while] loop updates: the
    breadcrumb stack [title], the buffer [currText] and [doc.segments]. *)
Record state : Type := mkState {
  title : list string;
  currText : string;
  segments : list EmbedderDocumentSegment
}.

(** The buffer flush of lines 280-295, repeated at lines 311-326. *)
Definition flush (doc : EmbedderDocument) (title : list string)
    (currText : string) (segments : list EmbedderDocumentSegment)
  : list EmbedderDocumentSegment :=
  if Js.nonempty currText then
    let tokenCount := length (tokenize currText) in
    if 500 <? tokenCount then
      let t := doc_title doc +:+ Js.LF +:+ Js.join Js.LF title +:+ Js.LF in
      let currText' := Js.trim (Js.replace t "" currText) in
      let tmpDoc := mkDocument (doc_uri doc) (doc_title doc) currText' [] in
      segments ++
        ((λ segment, mkSegment (Js.trim (t +:+ seg_text segment))
                       (seg_tokenCount segment) (seg_embedding segment))
           <$> recursiveSplit tmpDoc 1024 0)
    else segments ++ [mkSegment (Js.trim currText) tokenCount []]
  else segments.

(** [while (title.length > 0 && countHashAtBeginning(title[title.length - 1]) >= hashes) title.pop()],
    on the stack read from its top. *)
Fixpoint popFromTop (hashes : nat) (fromTop : list string) : list string :=
  match fromTop with
  | [] => []
  | top :: below =>
      if hashes <=? countHashAtBeginning top then popFromTop hashes below
      else fromTop
  end.

Definition popWhile (hashes : nat) (title : list string) : list string :=
  reverse (popFromTop hashes (reverse title)).

(** The breadcrumb update of lines 297-306. *)
Definition updateTitle (title : list string) (line : string) (hashes : nat)
  : list string :=
  if length title <? hashes then title ++ [Js.trim line]
  else popWhile hashes title ++ [Js.trim line].

(** One turn of the [while (lines.length > 0)] loop. *)
Definition step (doc : EmbedderDocument) (st : state) (line : string) : state :=
  let hashes := countHashAtBeginning (Js.trim line) in
  if hashes =? 0 then
    mkState (title st) (currText st +:+ line +:+ Js.LF) (segments st)
  else
    let segments' := flush doc (title st) (currText st) (segments st) in
    let title' := updateTitle (title st) line hashes in
    mkState title'
      (doc_title doc +:+ Js.LF +:+ Js.join Js.LF title' +:+ Js.LF) segments'.

Definition run (doc : EmbedderDocument) (lines : list string) : state :=
  fold_left (step doc) lines (mkState [] "" (doc_segments doc)).

(** The whole callback: the value of [doc.segments] when it returns. *)
Definition hook (doc : EmbedderDocument) : list EmbedderDocumentSegment :=
  let st := run doc (Js.split "010" (doc_text doc)) in
  flush doc (title st) (currText st) (segments st).

End Hook.

(** The update of the breadcrumb stack in the words of the specification:
    every entry of depth at least [d] is removed, then the heading is
    pushed. *)
Definition specUpdate (title : list string) (line : string) (d : nat)
  : list string :=
  filter (λ h, countHashAtBeginning h < d) title ++ [Js.trim line].

(** A stack is nested when its entry number [i], from the bottom, is a
    heading of depth [i + 1]: the headings opened so far start at depth
    1 and skip no level. *)
Definition nested (title : list string) : Prop :=
  ∀ i h, title !! i = Some h → countHashAtBeginning h = S i.

End MarkdownZip.

(** ** FAQ sources (lines 131-153) *)

Module Faq.

Record FaqSourceEntry : Type := mkEntry {
  id : string;
  questions : string;
  answer : string
}.

Record FaqSource : Type := mkSource {
  _id : string;
  faqs : list FaqSourceEntry
}.

Section Extractor.
Context `{Tokenizer} `{Engine}.

(** The document pushed for one entry (lines 136-141). *)
Definition document (source : FaqSource) (entry : FaqSourceEntry)
  : EmbedderDocument :=
  {| doc_uri := "faq://" +:+ _id source +:+ "/" +:+ id entry;
     doc_text := questions entry +:+ Js.LF +:+ Js.LF +:+ answer entry;
     doc_title := questions entry;
     doc_segments := [] |}.

Definition documents (source : FaqSource) : list EmbedderDocument :=
  document source <$> faqs source.

(** The callback handed to [embedDocuments] (lines 144-150): the new
    [doc.segments], or the error thrown. *)
Definition hook (doc : EmbedderDocument)
  : Js.result (list EmbedderDocumentSegment) :=
  let tokenCount := length (tokenize (doc_text doc)) in
  if 500 <? tokenCount then
    Js.Throw (newError ("Token count of FAQ entry '" +:+ doc_title doc
                          +:+ "' > 500, make it smaller."))
  else Js.Ok [mkSegment (doc_text doc) tokenCount []].

End Extractor.
End Faq.

(** ** Flarum sources (lines 155-222) *)

Module Flarum.

Record FlarumPost : Type := mkPost {
  content : string;
  userName : string;
  detectedLang : string
}.

(** [discussionId] is kept as the text that string concatenation makes of
    it; [posts] may be absent. *)
Record FlarumDiscussion : Type := mkDiscussion {
  discussionId : string;
  title : string;
  posts : option (list FlarumPost)
}.

Record FlarumSource : Type := mkSource {
  _id : string;
  apiUrl : string;
  forumUrl : string;
  staff : list string
}.

Section Extractor.
Context `{Tokenizer} `{TextSplitter} `{Js.Casing}.

(** The document built for a post that passed both filters
    (lines 187-208); [postId] is the value that [postId++] reads. *)
Definition postDocument (discussionUri : string) (discussion : FlarumDiscussion)
    (postId : nat) (post : FlarumPost) : EmbedderDocument :=
  let postUri := discussionUri +:+ "/" +:+ pretty postId in
  let tokenCount := length (tokenize (content post)) in
  let content := title discussion +:+ Js.LF +:+ content post in
  let segments :=
    if 500 <? tokenCount then
      let tmpDoc := mkDocument postUri (title discussion) content [] in
      recursiveSplit tmpDoc 1024 0
    else [mkSegment content tokenCount []] in
  {| doc_title := title discussion;
     doc_text := "";
     doc_uri := postUri;
     doc_segments := segments |}.

(** A post survives when it is English and, with a non-empty staff set,
    written by a staff member (lines 178-186). *)
Definition survives (staff : gset string) (post : FlarumPost) : bool :=
  if bool_decide (detectedLang post ≠ "en") then false
  else if bool_decide (0 < size staff)
            && negb (bool_decide (Js.toLowerCase (userName post) ∈ staff))
       then false
       else true.

(** [for (const post of discussion.posts)] with the running [postId]. *)
Fixpoint postsLoop (staff : gset string) (discussionUri : string)
    (discussion : FlarumDiscussion) (postId : nat) (posts : list FlarumPost)
  : list EmbedderDocument :=
  match posts with
  | [] => []
  | post :: rest =>
      if survives staff post then
        postDocument discussionUri discussion postId post
          :: postsLoop staff discussionUri discussion (S postId) rest
      else postsLoop staff discussionUri discussion postId rest
  end.

(** The [docs] array after the loop over the fetched discussions
    (lines 164-214); the progress messages are left out. *)
Definition docs (source : FlarumSource) (discussions : list FlarumDiscussion)
  : list EmbedderDocument :=
  let staff : gset string := list_to_set (Js.toLowerCase <$> staff source) in
  let forumUrl :=
    if Js.endsWith "/d/" (forumUrl source) then forumUrl source
    else forumUrl source +:+ "/d/" in
  discussions ≫= λ discussion,
    match posts discussion with
    | None => []
    | Some posts =>
        let discussionUri := forumUrl +:+ discussionId discussion in
        postsLoop staff discussionUri discussion 1 posts
    end.

End Extractor.
End Flarum.

(** ** Sitemap sources (lines 332-400) *)

(** [fetchWithRetry] and the scraping loop see the network through the
    outcome of each attempt: [attempt url k] is the response of the
    attempt number [k] on [url], or [None] when [fetch] rejects. *)
Record Response : Type := mkResponse {
  response_url : string;
  (** [response.text()]: [None] when reading the body rejects *)
  response_text : option string
}.

Class Network : Type := attempt : string → nat → option Response.

(** [normalizeHtml] and [extractDataWithXPath] wrap imported parsers. *)
Class HtmlTools : Type := {
  normalizeHtml : string → string;
  extractDataWithXPath : string → string → option (list string)
}.

Section Fetch.
Context `{Network} `{Engine}.

Fixpoint fetchLoop (url : string) (tries k : nat) : Js.result Response :=
  match tries with
  | 0 => Js.Throw (newError ("Could not fetch " +:+ url))
  | S tries' =>
      match attempt url k with
      | Some response => Js.Ok response
      | None => fetchLoop url tries' (S k)
      end
  end.

(** [fetchWithRetry(url)] with its default of 5 tries. *)
Definition fetchWithRetry (url : string) : Js.result Response :=
  fetchLoop url 5 0.

End Fetch.

Module Sitemap.

(** The fields of the source that the scraping loop reads. *)
Record SitemapSource : Type := mkSource {
  url : string;
  titlePath : string;
  contentPaths : list string
}.

Section Extractor.
Context `{Network} `{Engine} `{HtmlTools}.

(** [!html]: [undefined] and the empty string are both skipped. *)
Definition falsy (html : option string) : bool :=
  match html with
  | None => true
  | Some h => negb (Js.nonempty h)
  end.

(** The document pushed for one page (lines 377-390), [uri] apart. *)
Definition pageDocument (source : SitemapSource) (uri html : string)
  : EmbedderDocument :=
  let normalizedHtml := normalizeHtml html in
  let title :=
    default "" (Js.join Js.LF <$> extractDataWithXPath normalizedHtml (titlePath source)) in
  let text :=
    fold_left
      (λ text contentPath,
         let str := default "" (Js.join Js.LF <$> extractDataWithXPath normalizedHtml contentPath) in
         if Js.nonempty str then text +:+ str else text)
      (contentPaths source) "" in
  {| doc_uri := uri;
     doc_text := title +:+ Js.LF +:+ text;
     doc_title := title;
     doc_segments := [] |}.

(** [for (const html of htmls)] with its counter [i] (lines 374-392):
    [i] advances only past a page that produced a document.  [i] never
    exceeds the position of [html], so that [batchUrls[i]] is read within
    the batch. *)
Fixpoint pagesLoop (source : SitemapSource) (batchUrls : list string)
    (i : nat) (htmls : list (option string)) : list EmbedderDocument :=
  match htmls with
  | [] => []
  | html :: rest =>
      if falsy html then pagesLoop source batchUrls i rest
      else pageDocument source (batchUrls !!! i) (default "" html)
             :: pagesLoop source batchUrls (S i) rest
  end.

(** One turn of [while (urls.length > 0)] up to the cancellation check:
    the 25 fetches, the bodies, and the documents array after the batch.
    A fetch that fails aborts the batch.  When several fail,
    [Promise.all] rejects with the failure that comes first in time; the
    embedding has no clock and reports the first one in list order,
    which is one of them. *)
Definition batch (source : SitemapSource) (batchUrls : list string)
    (documents : list EmbedderDocument) : Js.result (list EmbedderDocument) :=
  responses ← Js.forEach fetchWithRetry batchUrls;
  let htmls := response_text <$> responses in
  Js.Ok (documents ++ pagesLoop source batchUrls 0 htmls).

(** The scraping loop (lines 362-395).  [shouldStop n] is the answer of
    the cancellation probe at the check that follows batch [n]. *)
Equations scrape (source : SitemapSource) (shouldStop : nat → bool)
    (n : nat) (documents : list EmbedderDocument) (urls : list string)
  : Js.result (list EmbedderDocument) by wf (length urls) lt :=
  scrape source shouldStop n documents [] := Js.Ok documents;
  scrape source shouldStop n documents (u :: us) :=
    Js.bind (batch source (take 25 (u :: us)) documents) (λ documents',
      if shouldStop n then Js.Throw (newError "Job stopped by user")
      else scrape source shouldStop (S n) documents' (drop 25 (u :: us))).
Next Obligation. intros. rewrite length_drop. simpl. lia. Qed.

End Extractor.
End Sitemap.

(** ** The job store and the scheduler (lines 402-587) *)

Inductive JobState : Type := waiting | running | succeeded | failed | stopped.

#[global] Instance JobState_eq_dec : EqDecision JobState.
Proof. solve_decision. Defined.

(** A job record; its [_id] is its key in the collection.  Times are the
    milliseconds of [Date.now()]. *)
Record ProcessingJob : Type := mkJob {
  job_sourceId : string;
  job_state : JobState;
  job_log : string;
  job_createdAt : Z;
  job_startedAt : option Z;
  job_finishedAt : option Z
}.

(** The [$set] updates used by the scheduler. *)
Definition setLog (log : string) (job : ProcessingJob) : ProcessingJob :=
  mkJob (job_sourceId job) (job_state job) log (job_createdAt job)
    (job_startedAt job) (job_finishedAt job).

Definition setClaimed (now : Z) (job : ProcessingJob) : ProcessingJob :=
  mkJob (job_sourceId job) running (job_log job) (job_createdAt job)
    (Some now) (job_finishedAt job).

Definition setFinished (state : JobState) (now : Z) (job : ProcessingJob)
  : ProcessingJob :=
  mkJob (job_sourceId job) state (job_log job) (job_createdAt job)
    (job_startedAt job) (Some now).

(** A call to the job store either is answered or rejects (the store
    cannot be reached); [up] tells which. *)
Definition storeCall {A} (up : bool) (answer : A) : option A :=
  if up then Some answer else None.

Module Processor.

(** The older of two candidates, for [sort: { createdAt: 1 }]. *)
Definition older (a b : string * ProcessingJob) : string * ProcessingJob :=
  if (job_createdAt a.2 <=? job_createdAt b.2)%Z then a else b.

Definition oldestWaiting (jobs : gmap string ProcessingJob)
  : option (string * ProcessingJob) :=
  foldr (λ candidate best, Some (from_option (older candidate) candidate best))
    None
    (filter (λ kj, job_state kj.2 = waiting) (map_to_list jobs)).

(** [getNextJob]: the collection after [findOneAndUpdate] and the claimed
    job as returned ([returnDocument: "after"]). *)
Definition getNextJob (now : Z) (jobs : gmap string ProcessingJob)
  : gmap string ProcessingJob * option (string * ProcessingJob) :=
  match oldestWaiting jobs with
  | None => (jobs, None)
  | Some (jobId, job) =>
      (<[jobId := setClaimed now job]> jobs, Some (jobId, setClaimed now job))
  end.

Definition updateJobLog (jobId log : string) (jobs : gmap string ProcessingJob)
  : gmap string ProcessingJob :=
  alter (setLog log) jobId jobs.

(** [job?.state ?? "stopped"] *)
Definition checkJobStatus (jobId : string) (jobs : gmap string ProcessingJob)
  : JobState :=
  match jobs !! jobId with
  | Some job => job_state job
  | None => stopped
  end.

Definition finishJob (jobId : string) (success : bool) (now : Z)
    (jobs : gmap string ProcessingJob) : gmap string ProcessingJob :=
  let newState := if success then succeeded else failed in
  alter (setFinished newState now) jobId jobs.

(** [log(job, message)]: the in-memory job with its log extended, and the
    collection after [updateJobLog] when the store answers. *)
Definition log (up : bool) (job : string * ProcessingJob) (message : string)
    (jobs : gmap string ProcessingJob)
  : (string * ProcessingJob) * option (gmap string ProcessingJob) :=
  let log' := job_log job.2 +:+ message +:+ Js.LF in
  ((job.1, setLog log' job.2), storeCall up (updateJobLog job.1 log' jobs)).

(** The cancellation probe of line 471. *)
Definition shouldStop (jobId : string) (jobs : gmap string ProcessingJob) : bool :=
  bool_decide (checkJobStatus jobId jobs = stopped).

(** The text logged for a caught value (lines 538-543). *)
Definition errorText (e : Js.thrown) : string :=
  match e with
  | Js.Error message stack => default message stack
  | Js.Other json => "Error: " +:+ json
  end.

(** The per-job [catch] block (lines 537-548).  [None]: [finishJob]
    rejected, which the outer [catch] of the loop reports. *)
Definition catchBlock (logUp finishUp : bool) (now : Z)
    (job : string * ProcessingJob) (e : Js.thrown)
    (jobs : gmap string ProcessingJob) : option (gmap string ProcessingJob) :=
  let message := errorText e in
  let jobs' := default jobs (log logUp job message jobs).2 in
  storeCall finishUp (finishJob job.1 false now jobs').


(** The [try]/[catch] around one claimed job (lines 463-548).  [body] is
    the outcome of lines 464-534, [job] and [jobs] the in-memory job and
    the collection when they end; [rejection] is the value thrown by
    [finishJob(job._id, true)] when the store rejects it. *)
Definition perJob (successUp logUp finishUp : bool) (rejection : Js.thrown)
    (now : Z) (job : string * ProcessingJob) (body : Js.result ())
    (jobs : gmap string ProcessingJob) : option (gmap string ProcessingJob) :=
  match body with
  | Js.Ok _ =>
      if successUp then Some (finishJob job.1 true now jobs)
      else catchBlock logUp finishUp now job rejection jobs
  | Js.Throw e => catchBlock logUp finishUp now job e jobs
  end.

(** The start-up recovery of line 582:
    [updateMany({state: "running"}, {$set: {state: "stopped", finishedAt}})]. *)
Definition recover (now : Z) (jobs : gmap string ProcessingJob)
  : gmap string ProcessingJob :=
  (λ job, if decide (job_state job = running) then setFinished stopped now job
          else job) <$> jobs.

(** The start-up function (lines 576-587): the collection on which
    [processor.process()] is started, or [None] when the recovery
    rejects and the loop is never entered. *)
Definition main (up : bool) (now : Z) (jobs : gmap string ProcessingJob)
  : option (gmap string ProcessingJob) :=
  storeCall up (recover now jobs).

(** The writes of the loop of [process] to the job store, one store call
    at a time.  The scheduler writes through [getNextJob], which claims a
    job, and through [updateJobLog] and [finishJob], always called with
    the [_id] of a job it has claimed (a log call that is not awaited may
    land after its job is finished).  A call that rejects writes nothing.
    The state is the collection and the ids claimed so far. *)
Definition sched : Type := gmap string ProcessingJob * gset string.

Inductive step : sched → sched → Prop :=
| step_claim now jobs jobs' claimed jobId job :
    getNextJob now jobs = (jobs', Some (jobId, job)) →
    step (jobs, claimed) (jobs', {[jobId]} ∪ claimed)
| step_log jobId log jobs claimed :
    jobId ∈ claimed →
    step (jobs, claimed) (updateJobLog jobId log jobs, claimed)
| step_finish jobId success now jobs claimed :
    jobId ∈ claimed →
    step (jobs, claimed) (finishJob jobId success now jobs, claimed).

End Processor.

(** ** The vector arrays and the batched upsert (lines 499-534) *)

Module Pipeline.

Record VectorMetadata : Type := mkMetadata {
  sourceId : string;
  docUri : string;
  docTitle : string;
  index : nat;
  tokenCount : nat
}.

Section Arrays.
Context (source_id : string).

Definition ids (docs : list EmbedderDocument) : list string :=
  docs ≫= λ doc, imap (λ index _, doc_uri doc +:+ "|" +:+ pretty index) (doc_segments doc).

Definition embeddings (docs : list EmbedderDocument) : list (list float) :=
  docs ≫= λ doc, seg_embedding <$> doc_segments doc.

Definition metadatas (docs : list EmbedderDocument) : list VectorMetadata :=
  docs ≫= λ doc,
    imap (λ index seg,
            {| sourceId := source_id;
               docUri := doc_uri doc;
               docTitle := doc_title doc;
               index := index;
               tokenCount := seg_tokenCount seg |})
         (doc_segments doc).

Definition vectorDocs (docs : list EmbedderDocument) : list string :=
  docs ≫= λ doc, seg_text <$> doc_segments doc.

(** What the loop asks of its collaborators, in order. *)
Inductive event : Type :=
| Upsert (ids : list string) (embeddings : list (list float))
    (metadatas : list VectorMetadata) (documents : list string)
| Logged (message : string).

Definition batchSize : nat := 2000.

(** [while (ids.length > 0)] of lines 520-534, every [upsert] answered. *)
Equations upsertLoop (total numProcessed : nat) (ids : list string)
    (embeddings : list (list float)) (metadatas : list VectorMetadata)
    (vectorDocs : list string) : list event by wf (length ids) lt :=
  upsertLoop total numProcessed [] _ _ _ := [];
  upsertLoop total numProcessed (x :: xs) embeddings metadatas vectorDocs :=
    let batchIds := take batchSize (x :: xs) in
    let numProcessed' := numProcessed + length batchIds in
    Upsert batchIds (take batchSize embeddings) (take batchSize metadatas)
      (take batchSize vectorDocs)
    :: Logged ("Wrote " +:+ pretty numProcessed' +:+ "/" +:+ pretty total
                 +:+ " segments to vector collection " +:+ source_id)
    :: upsertLoop total numProcessed' (drop batchSize (x :: xs))
         (drop batchSize embeddings) (drop batchSize metadatas)
         (drop batchSize vectorDocs).
Next Obligation. intros. rewrite length_drop. simpl. lia. Qed.

(** Lines 499-534 for the documents of one job. *)
Definition write (docs : list EmbedderDocument) : list event :=
  upsertLoop (length (ids docs)) 0 (ids docs) (embeddings docs)
    (metadatas docs) (vectorDocs docs).

End Arrays.

(** Reading a trace: the sizes of the upserted batches, the messages
    logged, and the records written, one per position of a batch. *)
Definition upsertSizes (trace : list event) : list nat :=
  trace ≫= λ e, match e with Upsert ids _ _ _ => [length ids] | Logged _ => [] end.

Definition loggedMessages (trace : list event) : list string :=
  trace ≫= λ e, match e with Upsert _ _ _ _ => [] | Logged message => [message] end.

Definition records (ids : list string) (embeddings : list (list float))
    (metadatas : list VectorMetadata) (documents : list string)
  : list (string * list float * VectorMetadata * string) :=
  zip (zip (zip ids embeddings) metadatas) documents.

Definition written (trace : list event)
  : list (string * list float * VectorMetadata * string) :=
  trace ≫= λ e,
    match e with
    | Upsert ids embeddings metadatas documents =>
        records ids embeddings metadatas documents
    | Logged _ => []
    end.

(** Every upsert is directly followed by a log call. *)
Fixpoint paired (trace : list event) : Prop :=
  match trace with
  | [] => True
  | Upsert _ _ _ _ :: Logged _ :: rest => paired rest
  | _ => False
  end.

(** The running totals of a list of batch sizes. *)
Fixpoint runningTotals (numProcessed : nat) (sizes : list nat) : list nat :=
  match sizes with
  | [] => []
  | size :: rest => (numProcessed + size) :: runningTotals (numProcessed + size) rest
  end.

Definition progressMessage (source_id : string) (total numProcessed : nat) : string :=
  "Wrote " +:+ pretty numProcessed +:+ "/" +:+ pretty total
    +:+ " segments to vector collection " +:+ source_id.

(** The sizes of the batches that cover [n] records: full batches, then
    the rest when there is one. *)
Definition batchSizesOf (n : nat) : list nat :=
  replicate (n / batchSize) batchSize
    ++ (if n mod batchSize =? 0 then [] else [n mod batchSize]).

(** The position in the flat arrays of the first segment of the
    document number [k]. *)
Definition offset (docs : list EmbedderDocument) (k : nat) : nat :=
  sum_list (length ∘ doc_segments <$> take k docs).

End Pipeline.

(** ** The URL selection of the sitemap extractor (lines 343-356) *)

(** [minimatch(url, pattern)], an imported package. *)
Class Glob : Type := minimatch : string → string → bool.

Module SitemapUrls.
Section Select.
Context `{Glob}.




End Select.
End SitemapUrls.

(** ** The document database ([database.ts]) *)

(** The ObjectIds of the driver.  [objectId id] is the hex string of
    [new ObjectId(id)], or what the constructor throws on an id that is
    not valid; [freshId keys] is the id that [insertOne] generates for a
    document without [_id] in a collection whose ids are [keys]. *)
Class ObjectIds : Type := {
  objectId : string → Js.result string;
  freshId : gset string → string;
  freshId_fresh : ∀ keys, freshId keys ∉ keys;
  objectId_freshId : ∀ keys, objectId (freshId keys) = Js.Ok (freshId keys);
  objectId_hex : ∀ id key, objectId id = Js.Ok key → objectId key = Js.Ok key
}.

(** [{ $set: entity }]: [assign entity stored] is the stored document
    with the fields of [entity] written over it; the fields that
    [entity] does not have are kept. *)
Class Fields (E : Type) : Type := assign : E → E → E.

(** Documents as finite maps from field names to values. *)
#[global] Instance fieldMap {V : Type} : Fields (gmap string V) :=
  λ entity stored, entity ∪ stored.

Module Database.
Section Entities.
Context `{ObjectIds} `{Engine} {E : Type} `{Fields E}.

(** A collection of the database, keyed by the hex string of [_id];
    [None] while the static field is not set.  The methods below are
    written once for the four kinds of entities, whose methods differ by
    the name in the error message ([kind]) only. *)
Definition connected (collection : option (gmap string E))
  : Js.result (gmap string E) :=
  match collection with
  | Some documents => Js.Ok documents
  | None => Js.Throw (newError "Not connected")
  end.

(** [getCollection], [getSource], [getChat], [getJob]: the document with
    its [_id] as hex string. *)
Definition getOne (kind id : string) (collection : option (gmap string E))
  : Js.result (string * E) :=
  documents ← connected collection;
  key ← objectId id;
  match documents !! key with
  | None => Js.Throw (newError (kind +:+ " with id " +:+ id +:+ " does not exist"))
  | Some document => Js.Ok (key, document)
  end.

(** [deleteSource], [deleteChat], [deleteJob]: [deletedCount] is tested. *)
Definition deleteOne (kind id : string) (collection : option (gmap string E))
  : Js.result (gmap string E) :=
  documents ← connected collection;
  key ← objectId id;
  match documents !! key with
  | None => Js.Throw (newError (kind +:+ " with id " +:+ id +:+ " does not exist"))
  | Some _ => Js.Ok (delete key documents)
  end.

(** [deleteCollection]: the result object of [deleteOne] is tested, which
    is never missing. *)
Definition deleteCollection (id : string) (collection : option (gmap string E))
  : Js.result (gmap string E) :=
  documents ← connected collection;
  key ← objectId id;
  Js.Ok (delete key documents).

(** [setCollection], [setSource], [setChat], [setJob]: the entity with
    its [_id], and the collection after the write.  An [_id] that is
    present is a non-empty string.  Without [_id] the document is
    inserted under a generated id; with one, [updateOne] with [$set]
    writes the fields of the entity over the document of that id, if
    there is one. *)
Definition setOne (entity : option string * E)
    (collection : option (gmap string E))
  : Js.result ((option string * E) * gmap string E) :=
  documents ← connected collection;
  match entity.1 with
  | None =>
      let key := freshId (dom documents) in
      Js.Ok ((Some key, entity.2), <[key := entity.2]> documents)
  | Some id =>
      key ← objectId id;
      Js.Ok ((Some key, entity.2), alter (assign entity.2) key documents)
  end.

(** The first statements of the [try] block of [Processor.process]
    (line 466): the source of the job is read, the rest of the block
    ([rest]) runs on it. *)
Definition tryBlock (sources : option (gmap string E))
    (job : string * ProcessingJob) (rest : string * E → Js.result ())
  : Js.result () :=
  source ← getOne "Source" (job_sourceId job.2) sources;
  rest source.

End Entities.
End Database.

(** ** The vector collection and [deleteSourceDocs] (lines 442-455, 493-534) *)

Record VectorRecord : Type := mkRecord {
  vec_embedding : list float;
  vec_metadata : Pipeline.VectorMetadata;
  vec_document : string
}.

Module Chroma.

(** [collection.get({ where: { sourceId }, limit, offset })]: the ids of
    the records of the source, in the order of the collection, [offset]
    of them skipped and at most [limit] returned. *)
Definition getIds (sourceId : string) (limit offset : nat)
    (collection : gmap string VectorRecord) : list string :=
  take limit
    (drop offset
       ((map_to_list
           (filter (λ kv, Pipeline.sourceId (vec_metadata kv.2) = sourceId)
              collection)).*1)).

(** [collection.delete({ ids })] *)
Fixpoint deleteIds (ids : list string) (collection : gmap string VectorRecord)
  : gmap string VectorRecord :=
  match ids with
  | [] => collection
  | id :: rest => deleteIds rest (delete id collection)
  end.

(** [collection.upsert({ ids, embeddings, metadatas, documents })]: the
    record at each position is written under its id. *)
Definition writeRecord (collection : gmap string VectorRecord)
    (r : string * list float * Pipeline.VectorMetadata * string)
  : gmap string VectorRecord :=
  <[r.1.1.1 := mkRecord r.1.1.2 r.1.2 r.2]> collection.

Definition upsert (ids : list string) (embeddings : list (list float))
    (metadatas : list Pipeline.VectorMetadata) (documents : list string)
    (collection : gmap string VectorRecord) : gmap string VectorRecord :=
  foldl writeRecord collection
    (Pipeline.records ids embeddings metadatas documents).

Lemma deleteIds_size ids (collection : gmap string VectorRecord) :
  size (deleteIds ids collection) ≤ size collection.
Proof.
  revert collection. induction ids as [|k rest IH]; intros collection; [done|].
  cbn [deleteIds]. etrans; [apply IH|]. rewrite map_size_delete.
  destruct (collection !! k); unfold id; lia.
Qed.

Lemma getIds_stored sourceId limit offset (collection : gmap string VectorRecord) id :
  id ∈ getIds sourceId limit offset collection →
  ∃ record, collection !! id = Some record
            ∧ Pipeline.sourceId (vec_metadata record) = sourceId.
Proof.
  unfold getIds. intros Hin.
  apply (subseteq_take limit), (subseteq_drop offset) in Hin.
  apply list_elem_of_fmap in Hin as [[k record] [-> Hin]].
  apply elem_of_map_to_list, map_lookup_filter_Some in Hin as [Hk HP].
  by exists record.
Qed.

Definition inspect {A} (a : A) : {b : A | a = b} := exist _ a eq_refl.

(** [deleteSourceDocs]: the collection when the method returns.  The
    loop reads at [offset] 0 every time; the query that follows it only
    reports on the console. *)
Equations deleteSourceDocs (sourceId : string)
    (collection : gmap string VectorRecord)
  : gmap string VectorRecord by wf (size collection) lt :=
  deleteSourceDocs sourceId collection
    with inspect (getIds sourceId 500 0 collection) := {
    | exist _ [] _ => collection
    | exist _ (id :: ids) Hget =>
        deleteSourceDocs sourceId (deleteIds (id :: ids) collection) }.
Next Obligation.
  rename id into k.
  destruct (getIds_stored sourceId 500 0 collection k) as (record & Hk & _).
  { rewrite Hget. apply list_elem_of_here. }
  eapply Nat.le_lt_trans; [apply deleteIds_size|].
  rewrite map_size_delete, Hk.
  assert (size collection ≠ 0); [|lia].
  intros Hz%map_size_empty_iff. by rewrite Hz, lookup_empty in Hk.
Qed.

(** The collection after the events of a trace of the upsert loop. *)
Definition applyEvent (collection : gmap string VectorRecord)
    (e : Pipeline.event) : gmap string VectorRecord :=
  match e with
  | Pipeline.Upsert ids embeddings metadatas documents =>
      upsert ids embeddings metadatas documents collection
  | Pipeline.Logged _ => collection
  end.

(** Lines 497-534 on the collection of the source: the vectors of the
    source are deleted, then the new ones are upserted in batches. *)
Definition replaceVectors (source_id : string) (docs : list EmbedderDocument)
    (collection : gmap string VectorRecord) : gmap string VectorRecord :=
  foldl applyEvent (deleteSourceDocs source_id collection)
    (Pipeline.write source_id docs).

End Chroma.

(** ** Reading a vector id back *)

(** Whether a string has a ["|"], and the cut of a string at its last
    ["|"]; they serve to state and prove that the ids are keys. *)
Fixpoint hasBar (s : string) : bool :=
  match s with
  | "" => false
  | String a s' => if Ascii.eqb a "|" then true else hasBar s'
  end.

Fixpoint splitLastBar (s : string) : option (string * string) :=
  match s with
  | "" => None
  | String a s' =>
      match splitLastBar s' with
      | Some (before, after) => Some (String a before, after)
      | None => if Ascii.eqb a "|" then Some ("", s') else None
      end
  end.

(** ** Markdown archives: reading the files (lines 225-263) *)

(** The [TypeError] that the engine throws when [property] is read on
    [undefined]. *)
Class Runtime : Type := typeError : string → Js.thrown.

(** [s.includes(pat)] *)
Fixpoint includes (pat s : string) : bool :=
  if String.prefix pat s then true
  else match s with
       | "" => false
       | String _ s' => includes pat s'
       end.

(** [s.replaceAll("\r", "")] *)
Fixpoint removeCR (s : string) : string :=
  match s with
  | "" => ""
  | String a s' => if Ascii.eqb a "013" then removeCR s' else String a (removeCR s')
  end.

Module MarkdownArchive.
Section Files.
Context `{Engine} `{Runtime}.

(** The document of one [.md] entry (lines 239-260).  [lines[0]] is
    always there; reading [lines[2]] or [lines[3]] of a shorter file
    throws at the method called on [undefined]. *)
Definition parseFile (relativePath content : string) : Js.result EmbedderDocument :=
  let lines := Js.split "010" (removeCR content) in
  let url := Js.trim (default "" (lines !! 0)) in
  match lines !! 2 with
  | None => Js.Throw (typeError "trim")
  | Some line2 =>
      let title := Js.replace "]" "" (Js.replace "[" "" (Js.trim line2)) in
      match lines !! 3 with
      | None => Js.Throw (typeError "startsWith")
      | Some line3 =>
          if String.prefix "[[" line3 && Js.endsWith "]]" (Js.trim line3) then
            let modifiedContent := Js.trim (Js.join Js.LF (drop 4 lines)) in
            Js.Ok {| doc_uri := url;
                     doc_title := title;
                     doc_text := modifiedContent;
                     doc_segments := [] |}
          else
            Js.Throw (newError ("Couldn't find header marker [[]] in "
                                  +:+ relativePath +:+ Js.LF
                                  +:+ Js.join Js.LF (take 10 lines)))
      end
  end.

(** The loop over the entries of the archive, as pairs of a path and a
    content, in the order of [Object.keys(zip.files)]; the log calls are
    left out. *)
Fixpoint documents (files : list (string * string))
  : Js.result (list EmbedderDocument) :=
  match files with
  | [] => Js.Ok []
  | (relativePath, content) :: rest =>
      if includes "__MACOSX/" relativePath then documents rest
      else if Js.endsWith ".md" relativePath then
        doc ← parseFile relativePath content;
        docs ← documents rest;
        Js.Ok (doc :: docs)
      else documents rest
  end.

(** The entries that the loop reads. *)
Definition selected (files : list (string * string)) : list (string * string) :=
  filter (λ file, includes "__MACOSX/" file.1 = false
                  ∧ Js.endsWith ".md" file.1 = true) files.

End Files.
End MarkdownArchive.

(** Whether a character occurs in a string. *)
Fixpoint occurs (c : ascii) (s : string) : bool :=
  match s with
  | "" => false
  | String a s' => Ascii.eqb a c || occurs c s'
  end.

(** ** [cleanUpText] (lines 76-87) *)

(** What [cleanUpText] does to a text depends on which characters the
    engine takes for white space: here a string is the sequence of its
    UTF-16 code units, as the regular expressions and [trim] see it. *)
Module Clean.

(** The code units of a text written in ASCII. *)
Definition units (s : string) : list N :=
  N_of_ascii <$> list_ascii_of_string s.

Definition LF : N := 10.
Definition CR : N := 13.
Definition SP : N := 32.

(** [\s], which is also what [trim] removes: the WhiteSpace and
    LineTerminator code points of ECMAScript, that is TAB, LF, VT, FF,
    CR, the space, U+00A0, U+1680, U+2000 to U+200A, U+2028, U+2029,
    U+202F, U+205F, U+3000 and U+FEFF. *)
Definition isWhiteSpace (c : N) : bool :=
  ((9 <=? c) && (c <=? 13) || (c =? 32) || (c =? 160) || (c =? 5760)
   || (8192 <=? c) && (c <=? 8202) || (c =? 8232) || (c =? 8233)
   || (c =? 8239) || (c =? 8287) || (c =? 12288) || (c =? 65279))%N.

Definition isLineBreak (c : N) : bool := ((c =? LF) || (c =? CR))%N.

(** [[^\S\r\n]]: a white space character that is neither CR nor LF. *)
Definition isBlank (c : N) : bool :=
  isWhiteSpace c && negb (isLineBreak c).

Definition isSpace (c : N) : bool := (c =? SP)%N.

(** The length of the longest prefix whose characters satisfy [p]. *)
Fixpoint countWhile (p : N → bool) (s : list N) : nat :=
  match s with
  | [] => 0
  | a :: s' => if p a then S (countWhile p s') else 0
  end.

(** [s.replace(re, rep)] for a global regular expression [re] that
    matches no empty string.  [matchAt s] is the length of the match of
    [re] at the start of [s] when there is one; the scan goes on after
    the match, or after the first character when there is none. *)
Equations replaceAll (matchAt : list N → option nat) (rep s : list N)
  : list N by wf (length s) lt :=
  replaceAll matchAt rep [] := [];
  replaceAll matchAt rep (a :: s') with matchAt (a :: s') := {
    | Some len := rep ++ replaceAll matchAt rep (drop (pred len) s');
    | None := a :: replaceAll matchAt rep s' }.
Next Obligation.
  intros. cbn. rewrite length_drop. lia.
Qed.

(** [/[^\S\r\n]+/]: the run of blanks at the start. *)
Definition blanks (s : list N) : option nat :=
  match countWhile isBlank s with
  | 0 => None
  | S n => Some (S n)
  end.

(** [ +] after [n] characters already matched. *)
Definition thenSpaces (n : nat) (s : list N) : option nat :=
  match countWhile isSpace s with
  | 0 => None
  | S k => Some (n + S k)
  end.

(** [/(\r?\n|\r) +/]: CR LF, LF or CR, then one space or more.  After
    CR LF without a space, giving back the LF does not help: CR alone is
    then followed by the LF, not by a space. *)
Definition breakThenSpaces (s : list N) : option nat :=
  match s with
  | [] => None
  | a :: rest =>
      if (a =? CR)%N then
        match rest with
        | [] => thenSpaces 1 rest
        | b :: rest' =>
            if (b =? LF)%N then thenSpaces 2 rest' else thenSpaces 1 rest
        end
      else if (a =? LF)%N then thenSpaces 1 rest
      else None
  end.

(** [/(\r?\n|\r){3,}/]: every CR and every LF can be matched on its own,
    so that by backtracking the expression matches a whole run of CR and
    LF characters as soon as the run has three characters. *)
Definition manyBreaks (s : list N) : option nat :=
  let k := countWhile isLineBreak s in
  if 3 <=? k then Some k else None.

Fixpoint trimStart (s : list N) : list N :=
  match s with
  | [] => []
  | a :: s' => if isWhiteSpace a then trimStart s' else s
  end.

Definition trimEnd (s : list N) : list N :=
  reverse (trimStart (reverse s)).

(** [s.trim()] *)
Definition trim (s : list N) : list N := trimEnd (trimStart s).

Definition cleanUpText (input : list N) : list N :=
  trim
    (replaceAll manyBreaks [LF; LF]
       (replaceAll breakThenSpaces [LF]
          (replaceAll blanks [SP] input))).

End Clean.

(** ** The shape of a cleaned text *)

Module Shape.
Import Clean.

(** The first character of [s], when there is one, satisfies [p]. *)
Definition headIs (p : N → bool) (s : list N) : bool :=
  match s with
  | [] => true
  | a :: _ => p a
  end.

Fixpoint allChars (p : N → bool) (s : list N) : bool :=
  match s with
  | [] => true
  | a :: s' => p a && allChars p s'
  end.

(** Every two characters in a row satisfy [ok]. *)
Fixpoint pairsOk (ok : N → N → bool) (s : list N) : bool :=
  match s with
  | [] => true
  | a :: s' => headIs (ok a) s' && pairsOk ok s'
  end.

(** No three line breaks in a row. *)
Fixpoint runsOk (s : list N) : bool :=
  match s with
  | [] => true
  | a :: s' => (countWhile isLineBreak (a :: s') <=? 2) && runsOk s'
  end.

Definition graphic (a : N) : bool := negb (isWhiteSpace a).

Definition noTwoSpaces (a b : N) : bool := negb (isSpace a && isSpace b).

Definition noSpaceAfterBreak (a b : N) : bool :=
  negb (isLineBreak a && isSpace b).

(** A text is normal when its only white space characters are spaces,
    CR and LF, it has no two spaces in a row, no space right after a
    line break, no three line breaks in a row, and no white space at
    either end. *)
Definition normal (s : list N) : Prop :=
  allChars (λ a, negb (isBlank a) || isSpace a) s = true
  ∧ pairsOk noTwoSpaces s = true
  ∧ pairsOk noSpaceAfterBreak s = true
  ∧ runsOk s = true
  ∧ headIs graphic s = true
  ∧ headIs graphic (reverse s) = true.

End Shape.

(** ** [extractDataWithXPath] (lines 89-112) *)

(** What [xpath.select] returns on the parsed page: the selected nodes,
    a single node, a string, a number, a boolean, or nothing.  A node is
    seen through its [textContent], [None] for [null]; texts are
    sequences of code units, as [cleanUpText] reads them. *)
Inductive Selected : Type :=
| Nodes (nodes : list (option (list N)))
| Node (node : option (list N))
| Str (s : list N)
| Num (n : float)
| Bool (b : bool)
| Null.

(** The imported parser and evaluator (the expression comes first, as
    in [xpath.select]), and [Number.prototype.toString]. *)
Class XPath : Type := {
  select : string → string → Selected;
  numberToString : float → list N
}.

Module Extract.
Section Extract.
Context `{XPath}.

(** [!result]: arrays and nodes are never falsy. *)
Definition falsy (result : Selected) : bool :=
  match result with
  | Nodes _ | Node _ => false
  | Str [] => true
  | Str (_ :: _) => false
  | Num n => PrimFloat.eqb n 0 || PrimFloat.is_nan n
  | Bool b => negb b
  | Null => true
  end.

(** [node.textContent] when it is truthy. *)
Definition textContent (node : option (list N)) : option (list N) :=
  match node with
  | Some (c :: text) => Some (c :: text)
  | Some [] | None => None
  end.

(** The [results] array before the final [map]. *)
Definition results (result : Selected) : list (list N) :=
  match result with
  | Nodes nodes => omap textContent nodes
  | Node node => option_list (textContent node)
  | Str s => [s]
  | Num n => [numberToString n]
  | Bool b => [Clean.units (if b then "true" else "false")]
  | Null => []
  end.

Definition extractDataWithXPath (normalizedHtml xpathExpression : string)
  : option (list (list N)) :=
  let result := select xpathExpression normalizedHtml in
  if falsy result then None
  else Some (Clean.cleanUpText <$> results result).

End Extract.
End Extract.

(** ** [VectorStore.getDocuments] ([database.ts], lines 219-228) *)

Module VectorStore.

(** The vector documents read from a collection of the vector store:
    the metadata and the text of the records of the source, [offset] of
    them skipped and at most [limit] returned, in the order of the
    collection. *)
Definition getDocuments (sourceId : string) (offset limit : nat)
    (collection : gmap string VectorRecord)
  : list (Pipeline.VectorMetadata * string) :=
  (λ kv, (vec_metadata kv.2, vec_document kv.2)) <$>
    take limit
      (drop offset
         (map_to_list
            (filter (λ kv, Pipeline.sourceId (vec_metadata kv.2) = sourceId)
               collection))).

End VectorStore.

(** ** Sample instances of the imported interfaces

    They stand in for the imported packages where the code is run on a
    concrete input. *)

(** A case mapping that lowers the letters [A] to [Z] and nothing else. *)
Definition lower (a : ascii) : ascii :=
  let n := nat_of_ascii a in
  if (65 <=? n) && (n <=? 90) then ascii_of_nat (n + 32) else a.

Fixpoint asciiLower (s : string) : string :=
  match s with
  | "" => ""
  | String a s' => String (lower a) (asciiLower s')
  end.

Definition asciiCasing : Js.Casing := asciiLower.

(** One token per white space separated word. *)
Definition wordTokenizer : Tokenizer := λ s, String.length <$> String.words s.

(** One piece per line. *)
Definition lineSplitter : TextSplitter := λ _ _ s, Js.split "010" s.

(** A stack that starts with the message, as V8 prints it. *)
Definition sampleEngine : Engine :=
  λ message, Some ("Error: " +:+ message +:+ Js.LF +:+ "    at process").

(** The page itself as the only selected node. *)
Definition plainHtml : HtmlTools :=
  {| normalizeHtml := λ html, html;
     extractDataWithXPath := λ html _, Some [html] |}.

(** [lines ls]: the text whose lines are [ls]. *)
Definition lines (ls : list string) : string := Js.join Js.LF ls.

(** The document text of the specification's heading example,
    ["# A\nbody1\n## B\nbody2\n# C\nbody3"]. *)
Definition headingExample : string :=
  lines ["# A"; "body1"; "## B"; "body2"; "# C"; "body3"].

(** The buffer that follows a heading: document title and breadcrumb. *)
Definition crumbs (docTitle : string) (breadcrumb : list string) : string :=
  docTitle +:+ Js.LF +:+ Js.join Js.LF breadcrumb +:+ Js.LF.

(** [words n w]: the word [w] written [n] times. *)
Fixpoint words (n : nat) (w : string) : string :=
  match n with
  | 0 => ""
  | S n' => w +:+ " " +:+ words n' w
  end.

(** A forum post of 500 words under a one word title. *)
Definition longPost : Flarum.FlarumPost :=
  Flarum.mkPost (words 500 "hi") "Nate" "en".

Definition longDiscussion : Flarum.FlarumDiscussion :=
  Flarum.mkDiscussion "7" "Bones" (Some [longPost]).

Definition forum : Flarum.FlarumSource :=
  Flarum.mkSource "s1" "https://forum/api/dump" "https://forum" [].

(** FAQ entries of 500 and of 501 words. *)
Definition faqSource : Faq.FaqSource :=
  Faq.mkSource "s2"
    [ Faq.mkEntry "e1" (words 200 "how") (words 300 "so");
      Faq.mkEntry "e2" (words 200 "how") (words 301 "so") ].

(** A site on which reading the body of page [a] fails. *)
Definition pageA : string := "https://site/a".
Definition pageB : string := "https://site/b".

Definition flakyNetwork : Network :=
  λ url _,
    if decide (url = pageA) then Some (mkResponse url None)
    else Some (mkResponse url (Some ("<html>" +:+ url +:+ "</html>"))).

Definition site : Sitemap.SitemapSource :=
  Sitemap.mkSource "https://site/sitemap.xml" "//title" ["//main"].

(** A job store with one job left [running] by a crash and one waiting. *)
Definition orphanJob : ProcessingJob :=
  mkJob "s1" running "Scraping 3 urls" 100%Z (Some 110%Z) None.

Definition queuedJob : ProcessingJob :=
  mkJob "s2" waiting "" 200%Z None None.

Definition crashedStore : gmap string ProcessingJob :=
  {[ "j1" := orphanJob; "j2" := queuedJob ]}.

(** A document of 4500 one word segments. *)
Definition bigDocument : EmbedderDocument :=
  mkDocument "https://site/big" "Big" ""
    (replicate 4500 (mkSegment "word" 1 [])).

(** Two documents of two and of one segment. *)
Definition smallDocs : list EmbedderDocument :=
  [ mkDocument "https://site/a" "A" ""
      [mkSegment "a0" 1 [1%float]; mkSegment "a1" 1 [2%float]];
    mkDocument "https://site/b" "B" "" [mkSegment "b0" 1 [3%float]] ].

(** A network on which every page is answered at the third attempt. *)
Definition slowNetwork : Network :=
  λ url k,
    if k <? 2 then None
    else Some (mkResponse url (Some ("<html>" +:+ url +:+ "</html>"))).

(** A network on which page [a] is never answered. *)
Definition deadNetwork : Network :=
  λ url _,
    if decide (url = pageA) then None
    else Some (mkResponse url (Some ("<html>" +:+ url +:+ "</html>"))).

(** Ids that are all valid and their own hex string. *)
Definition sampleIds : ObjectIds :=
  {| objectId := Js.Ok;
     freshId := fresh;
     freshId_fresh := is_fresh;
     objectId_freshId := λ _, eq_refl;
     objectId_hex := λ _ _ _, eq_refl |}.

(** A collection of jobs as the database holds them, field by field. *)
Definition storedJobs : gmap string (gmap string string) :=
  {[ "65f1a2b3c4d5e6f708192a3b" :=
       {[ "sourceId" := "s1"; "state" := "running"; "startedAt" := "110" ]} ]}.

(** The [TypeError] of V8, without stack. *)
Definition sampleRuntime : Runtime :=
  λ property,
    Js.Error
      ("Cannot read properties of undefined (reading '" +:+ property +:+ "')")
      None.

(** A vector collection with a record of an earlier run of source [s1]
    and a record of source [s2]. *)
Definition oldVectors : gmap string VectorRecord :=
  {[ "https://site/old|0" :=
       mkRecord [9%float] (Pipeline.mkMetadata "s1" "https://site/old" "Old" 0 1) "old";
     "https://other/x|0" :=
       mkRecord [8%float] (Pipeline.mkMetadata "s2" "https://other/x" "X" 0 1) "x" ]}.

(** A file of a markdown archive, in the header convention. *)
Definition slotsFile : string :=
  lines [ "http://esotericsoftware.com/spine-slots"; "";
          "[Slots]"; "[[header]]"; "Slots hold attachments."; "" ].

(** A document without heading. *)
Definition plainDocument : EmbedderDocument :=
  mkDocument "https://site/plain" "Plain" (lines ["plain text"; "more"]) [].

(** A page on which every expression selects the same four nodes. *)
Definition sampleXPath : XPath :=
  {| select := λ _ _,
       Nodes [ Some (Clean.units " Slots" ++ [160; 160]%N
                       ++ Clean.units "hold attachments. ");
               Some []; None; Some [Clean.SP; 160%N] ];
     numberToString := λ _, Clean.units "NaN" |}.

(** * Properties *)

(** ** Strings *)

Lemma nonempty_app_r (s t : string) :
  Js.nonempty t = true → Js.nonempty (s +:+ t) = true.
Proof. destruct s; [done|]. intros _. reflexivity. Qed.

Lemma app_assoc_string (s t u : string) : (s +:+ t) +:+ u = s +:+ t +:+ u.
Proof.
  induction s as [|a s IH]; [done|].
  change (String a ((s +:+ t) +:+ u) = String a (s +:+ t +:+ u)).
  by rewrite IH.
Qed.

Example split_lines : Js.split "010" (lines ["a"; "b"; ""]) = ["a"; "b"; ""].
Proof. reflexivity. Qed.

Example split_empty : Js.split "010" "" = [""].
Proof. reflexivity. Qed.

Example trim_both_ends : Js.trim ("  a b " +:+ Js.LF) = "a b".
Proof. reflexivity. Qed.

Example replace_first_only : Js.replace "b" "" "abcb" = "acb".
Proof. reflexivity. Qed.

Example replace_absent : Js.replace "x" "" "abcb" = "abcb".
Proof. reflexivity. Qed.

Example lower_case : @Js.toLowerCase asciiCasing "NaTe_7" = "nate_7".
Proof. reflexivity. Qed.

Example ends_with_d : Js.endsWith "/d/" "https://forum/d/" = true.
Proof. reflexivity. Qed.

Example hashes_of_heading : countHashAtBeginning "## B" = 2.
Proof. reflexivity. Qed.

Example hashes_not_leading : countHashAtBeginning "a # b" = 0.
Proof. reflexivity. Qed.

(** ** The heading-aware split *)

Section MarkdownZipFacts.
Context `{Tokenizer} `{TextSplitter}.
Import MarkdownZip.

Lemma flush_empty doc title segments : flush doc title "" segments = segments.
Proof. reflexivity. Qed.

Lemma flush_small doc title buf segments :
  Js.nonempty buf = true →
  length (tokenize buf) ≤ 500 →
  flush doc title buf segments
  = segments ++ [mkSegment (Js.trim buf) (length (tokenize buf)) []].
Proof.
  intros Hne Hle. unfold flush. rewrite Hne.
  destruct (Nat.ltb_spec 500 (length (tokenize buf))); [lia|done].
Qed.

Lemma flush_large doc title buf segments :
  Js.nonempty buf = true →
  500 < length (tokenize buf) →
  let t := crumbs (doc_title doc) title in
  flush doc title buf segments
  = segments ++
      ((λ split, mkSegment (Js.trim (t +:+ split)) (length (tokenize split)) [])
         <$> splitText 1024 0 (Js.trim (Js.replace t "" buf))).
Proof.
  intros Hne Hgt t. unfold flush. rewrite Hne.
  destruct (Nat.ltb_spec 500 (length (tokenize buf))); [|lia].
  unfold recursiveSplit. cbn [doc_text]. by rewrite <- list_fmap_compose.
Qed.

Lemma step_body doc st line :
  countHashAtBeginning (Js.trim line) = 0 →
  step doc st line
  = mkState (title st) (currText st +:+ line +:+ Js.LF) (segments st).
Proof. intros Hz. unfold step. by rewrite Hz. Qed.

Lemma step_heading doc st line :
  0 < countHashAtBeginning (Js.trim line) →
  let title' := updateTitle (title st) line (countHashAtBeginning (Js.trim line)) in
  step doc st line
  = mkState title' (crumbs (doc_title doc) title')
      (flush doc (title st) (currText st) (segments st)).
Proof.
  intros Hpos. unfold step.
  destruct (Nat.eqb_spec (countHashAtBeginning (Js.trim line)) 0); [lia|done].
Qed.

(** C8.  On the document text ["# A\nbody1\n## B\nbody2\n# C\nbody3"] the
    heading-aware split produces exactly three segments.  Their texts are
    the (trimmed) buffers made of the document title, the breadcrumb and
    the body, with the breadcrumbs [# A], then [# A; ## B], then [# C]:
    the heading C closed both open sections.  The three buffers are
    assumed to stay within the ceiling of 500 tokens, so that no buffer
    goes to the flat recursive split. *)
Theorem heading_example_segments (uri docTitle : string) :
  let doc := mkDocument uri docTitle headingExample [] in
  let b1 := crumbs docTitle ["# A"] +:+ "body1" +:+ Js.LF in
  let b2 := crumbs docTitle ["# A"; "## B"] +:+ "body2" +:+ Js.LF in
  let b3 := crumbs docTitle ["# C"] +:+ "body3" +:+ Js.LF in
  length (tokenize b1) ≤ 500 →
  length (tokenize b2) ≤ 500 →
  length (tokenize b3) ≤ 500 →
  hook doc
  = [ mkSegment (Js.trim b1) (length (tokenize b1)) [];
      mkSegment (Js.trim b2) (length (tokenize b2)) [];
      mkSegment (Js.trim b3) (length (tokenize b3)) [] ]
  ∧ title (run doc ["# A"]) = ["# A"]
  ∧ title (run doc ["# A"; "body1"; "## B"]) = ["# A"; "## B"]
  ∧ title (run doc ["# A"; "body1"; "## B"; "body2"; "# C"]) = ["# C"].
Proof.
  intros doc b1 b2 b3 H1 H2 H3.
  assert (E1 : step doc (mkState [] "" []) "# A"
               = mkState ["# A"] (crumbs docTitle ["# A"]) []).
  { rewrite step_heading by (vm_compute; lia). reflexivity. }
  assert (E2 : step doc (mkState ["# A"] (crumbs docTitle ["# A"]) []) "body1"
               = mkState ["# A"] b1 []).
  { rewrite step_body by reflexivity. reflexivity. }
  assert (E3 : step doc (mkState ["# A"] b1 []) "## B"
               = mkState ["# A"; "## B"] (crumbs docTitle ["# A"; "## B"])
                   [mkSegment (Js.trim b1) (length (tokenize b1)) []]).
  { rewrite step_heading by (vm_compute; lia). cbn [title currText segments].
    rewrite flush_small; [reflexivity| |exact H1].
    unfold b1, crumbs. rewrite !app_assoc_string.
    do 3 apply nonempty_app_r. reflexivity. }
  assert (E4 : ∀ segs, step doc (mkState ["# A"; "## B"] (crumbs docTitle ["# A"; "## B"]) segs) "body2"
               = mkState ["# A"; "## B"] b2 segs).
  { intros segs. rewrite step_body by reflexivity. reflexivity. }
  assert (E5 : ∀ segs, step doc (mkState ["# A"; "## B"] b2 segs) "# C"
               = mkState ["# C"] (crumbs docTitle ["# C"])
                   (segs ++ [mkSegment (Js.trim b2) (length (tokenize b2)) []])).
  { intros segs. rewrite step_heading by (vm_compute; lia).
    cbn [title currText segments].
    rewrite flush_small; [reflexivity| |exact H2].
    unfold b2, crumbs. rewrite !app_assoc_string.
    do 3 apply nonempty_app_r. reflexivity. }
  assert (E6 : ∀ segs, step doc (mkState ["# C"] (crumbs docTitle ["# C"]) segs) "body3"
               = mkState ["# C"] b3 segs).
  { intros segs. rewrite step_body by reflexivity. reflexivity. }
  assert (Hlines : Js.split "010" (doc_text doc)
                   = ["# A"; "body1"; "## B"; "body2"; "# C"; "body3"])
    by reflexivity.
  unfold hook, run. rewrite Hlines. cbn [fold_left doc_segments doc].
  rewrite E1, E2, E3. split; [|split; [done|split; [done|]]].
  - rewrite E4, E5, E6. cbn [title currText segments].
    rewrite flush_small; [reflexivity| |exact H3].
    unfold b3, crumbs. rewrite !app_assoc_string.
    do 3 apply nonempty_app_r. reflexivity.
  - by rewrite E4, E5.
Qed.

(** A heading deeper than the stack is long is pushed and nothing is
    popped, whatever the depths on the stack (line 297). *)
Lemma updateTitle_deeper_than_length title line hashes :
  length title < hashes →
  updateTitle title line hashes = title ++ [Js.trim line].
Proof.
  intros Hlt. unfold updateTitle.
  destruct (Nat.ltb_spec (length title) hashes); [done|lia].
Qed.

Lemma updateTitle_within_length title line hashes :
  hashes ≤ length title →
  updateTitle title line hashes = popWhile hashes title ++ [Js.trim line].
Proof.
  intros Hle. unfold updateTitle.
  destruct (Nat.ltb_spec (length title) hashes); [lia|done].
Qed.

Lemma popWhile_snoc hashes title top :
  popWhile hashes (title ++ [top])
  = if hashes <=? countHashAtBeginning top then popWhile hashes title
    else title ++ [top].
Proof.
  unfold popWhile. rewrite reverse_snoc. cbn [popFromTop].
  case_match; [done|]. by rewrite reverse_cons, reverse_involutive.
Qed.

Lemma nested_snoc title top :
  nested (title ++ [top]) ↔
  nested title ∧ countHashAtBeginning top = S (length title).
Proof.
  unfold nested. split.
  - intros Hn. split.
    + intros i h Hi. apply Hn. by apply lookup_app_l_Some.
    + apply Hn. by rewrite lookup_app_r, Nat.sub_diag.
  - intros [Hn Htop] i h Hi.
    apply lookup_snoc_Some in Hi as [[_ Hi]|[-> <-]]; [by apply Hn|done].
Qed.

Lemma nested_depth_le title h :
  nested title → h ∈ title → countHashAtBeginning h ≤ length title.
Proof.
  intros Hn [i Hi]%list_elem_of_lookup. rewrite (Hn _ _ Hi).
  by apply lookup_lt_Some in Hi.
Qed.

Lemma filter_all {A} (P : A → Prop) `{∀ x, Decision (P x)} (l : list A) :
  Forall P l → filter P l = l.
Proof.
  induction 1 as [|x l Hx _ IH]; [done|].
  by rewrite filter_cons_True, IH.
Qed.

Lemma filter_shallower_all title d :
  nested title → length title < d →
  filter (λ h, countHashAtBeginning h < d) title = title.
Proof.
  intros Hn Hlt. apply filter_all. apply Forall_forall. intros h Hh.
  pose proof (nested_depth_le title h Hn Hh). lia.
Qed.

(** On a nested stack the [while] loop pops exactly the entries of depth
    at least [hashes]. *)
Lemma popWhile_nested title hashes :
  nested title →
  popWhile hashes title = filter (λ h, countHashAtBeginning h < hashes) title.
Proof.
  induction title as [|top title IH] using rev_ind; intros Hn; [done|].
  apply nested_snoc in Hn as [Hn Htop].
  rewrite popWhile_snoc, filter_app.
  destruct (Nat.leb_spec hashes (countHashAtBeginning top)) as [Hle|Hgt].
  - rewrite filter_cons_False, filter_nil, app_nil_r by lia. by apply IH.
  - rewrite filter_cons_True, filter_nil by lia.
    rewrite filter_shallower_all by (done || lia). done.
Qed.

(** On a nested stack the update of lines 297-306 is the update of the
    specification. *)
Lemma updateTitle_nested title line hashes :
  nested title →
  updateTitle title line hashes = specUpdate title line hashes.
Proof.
  intros Hn. unfold updateTitle, specUpdate.
  destruct (Nat.ltb_spec (length title) hashes) as [Hlt|Hge].
  - by rewrite filter_shallower_all.
  - by rewrite popWhile_nested.
Qed.

Lemma filter_shallower_take title d :
  nested title →
  filter (λ h, countHashAtBeginning h < S d) title = take d title.
Proof.
  induction title as [|top title IH] using rev_ind; intros Hn.
  - by rewrite take_nil.
  - apply nested_snoc in Hn as [Hn Htop]. rewrite filter_app.
    destruct (decide (countHashAtBeginning top < S d)) as [Hlt|Hge].
    + rewrite filter_cons_True, filter_nil by done.
      rewrite take_ge by (rewrite length_app; cbn; lia).
      rewrite IH by done. by rewrite take_ge by lia.
    + rewrite filter_cons_False, filter_nil, app_nil_r by done.
      rewrite take_app_le by lia. by apply IH.
Qed.

(** A heading that opens at most one level keeps the stack nested, with
    the new heading on top of the entries shallower than it. *)
Lemma updateTitle_keeps_nested title line :
  let hashes := countHashAtBeginning (Js.trim line) in
  nested title →
  0 < hashes ≤ S (length title) →
  nested (updateTitle title line hashes)
  ∧ updateTitle title line hashes = take (hashes - 1) title ++ [Js.trim line].
Proof.
  intros hashes Hn [Hpos Hle].
  rewrite updateTitle_nested by done. unfold specUpdate.
  destruct hashes as [|d] eqn:Hd; [lia|].
  rewrite filter_shallower_take by done.
  replace (S d - 1) with d by lia. split; [|done].
  apply nested_snoc. split.
  - intros i h Hi. apply lookup_take_Some in Hi as [Hi _]. by apply Hn.
  - rewrite length_take. fold hashes in Hd. lia.
Qed.

(** C2.  The code at the document text ["## B\nb\n## C\nc"]: when the
    heading [## C], of depth 2, arrives, the stack holds the one entry
    [## B], of depth 2.  As 2 exceeds the length 1 of the stack, the
    heading is pushed and nothing is popped: the stack becomes
    [## B; ## C], with an entry of depth 2 below its top, where popping
    every entry of depth at least 2 before the push leaves [## C] alone. *)
Theorem same_depth_heading_not_popped (uri docTitle : string) :
  let doc := mkDocument uri docTitle (lines ["## B"; "b"; "## C"; "c"]) [] in
  let d := countHashAtBeginning (Js.trim "## C") in
  d = 2
  ∧ countHashAtBeginning "## B" = 2
  ∧ title (run doc ["## B"; "b"]) = ["## B"]
  ∧ updateTitle ["## B"] "## C" d = ["## B"; "## C"]
  ∧ specUpdate ["## B"] "## C" d = ["## C"]
  ∧ title (run doc (Js.split "010" (doc_text doc))) = ["## B"; "## C"].
Proof. by repeat split. Qed.

End MarkdownZipFacts.

(** The segments of the two sibling sections with the sample tokenizer:
    the text of the second one carries both headings. *)
Example sibling_sections_segments :
  seg_text <$> @MarkdownZip.hook wordTokenizer lineSplitter
                 (mkDocument "http://esotericsoftware.com/spine-slots" "Slots"
                    (lines ["## B"; "b"; "## C"; "c"]) [])
  = [ lines ["Slots"; "## B"; "b"]; lines ["Slots"; "## B"; "## C"; "c"] ].
Proof. reflexivity. Qed.

(** The heading example run with the sample tokenizer: three segments. *)
Lemma heading_example_segments_witness :
  @MarkdownZip.hook wordTokenizer lineSplitter
    (mkDocument "http://esotericsoftware.com/spine-slots" "Slots" headingExample [])
  = [ mkSegment (lines ["Slots"; "# A"; "body1"]) 4 [];
      mkSegment (lines ["Slots"; "# A"; "## B"; "body2"]) 6 [];
      mkSegment (lines ["Slots"; "# C"; "body3"]) 4 [] ].
Proof.
  apply (@heading_example_segments wordTokenizer lineSplitter
           "http://esotericsoftware.com/spine-slots" "Slots");
    vm_compute; lia.
Defined.

(** ** The FAQ extractor *)

Section FaqFacts.
Context `{Tokenizer} `{Engine}.
Import Faq.

(** C3.  The FAQ extractor builds one document per entry, in order, with
    the text [question + "\n\n" + answer] and the question as title.  On
    such a document the callback throws an [Error] whose message quotes
    the title of the entry when the token count of the text exceeds 500,
    and otherwise (500 included) returns exactly one segment, holding the
    whole text and its token count. *)
Theorem faq_entry_one_segment_or_error (source : FaqSource) :
  length (documents source) = length (faqs source)
  ∧ ∀ i entry, faqs source !! i = Some entry →
      let doc := document source entry in
      let count := length (tokenize (doc_text doc)) in
      documents source !! i = Some doc
      ∧ doc_text doc = questions entry +:+ Js.LF +:+ Js.LF +:+ answer entry
      ∧ (500 < count →
           hook doc
           = Js.Throw (newError ("Token count of FAQ entry '" +:+ questions entry
                                   +:+ "' > 500, make it smaller.")))
      ∧ (count ≤ 500 → hook doc = Js.Ok [mkSegment (doc_text doc) count []]).
Proof.
  split; [apply length_fmap|].
  intros i entry Hi doc count. split; [|split; [done|split]].
  - unfold documents. by rewrite list_lookup_fmap, Hi.
  - intros Hgt. unfold hook. fold count.
    destruct (Nat.ltb_spec 500 count); [done|lia].
  - intros Hle. unfold hook. fold count.
    destruct (Nat.ltb_spec 500 count); [lia|done].
Qed.

End FaqFacts.

(** An entry of exactly 500 tokens gives one segment; the next entry, of
    501 tokens, is refused. *)
Lemma faq_entry_one_segment_or_error_witness :
  let e1 := Faq.mkEntry "e1" (words 200 "how") (words 300 "so") in
  let e2 := Faq.mkEntry "e2" (words 200 "how") (words 301 "so") in
  let d1 := @Faq.document faqSource e1 in
  let d2 := @Faq.document faqSource e2 in
  @Faq.hook wordTokenizer sampleEngine d1 = Js.Ok [mkSegment (doc_text d1) 500 []]
  ∧ @Faq.hook wordTokenizer sampleEngine d2
    = Js.Throw (@newError sampleEngine
        ("Token count of FAQ entry '" +:+ words 200 "how" +:+ "' > 500, make it smaller.")).
Proof.
  intros e1 e2 d1 d2.
  pose proof (@faq_entry_one_segment_or_error wordTokenizer sampleEngine faqSource)
    as [_ Hentry].
  split.
  - destruct (Hentry 0 e1 eq_refl) as (_ & _ & _ & Hok).
    apply Hok. vm_compute. lia.
  - destruct (Hentry 1 e2 eq_refl) as (_ & _ & Hthrow & _).
    apply Hthrow. vm_compute. lia.
Defined.

(** ** The Flarum extractor *)

Section FlarumFacts.
Context `{Tokenizer} `{TextSplitter}.
Import Flarum.

(** The test of line 193 reads the token count of [post.content]; the
    text of the single segment is the title, a newline and the content,
    and its [tokenCount] is the count of the content alone. *)
Lemma postDocument_within_ceiling discussionUri discussion postId post :
  length (tokenize (content post)) ≤ 500 →
  doc_segments (postDocument discussionUri discussion postId post)
  = [mkSegment (title discussion +:+ Js.LF +:+ content post)
       (length (tokenize (content post))) []].
Proof.
  intros Hle. unfold postDocument. cbn [doc_segments].
  destruct (Nat.ltb_spec 500 (length (tokenize (content post)))); [lia|done].
Qed.

Lemma postDocument_above_ceiling discussionUri discussion postId post :
  500 < length (tokenize (content post)) →
  doc_segments (postDocument discussionUri discussion postId post)
  = recursiveSplit
      (mkDocument (discussionUri +:+ "/" +:+ pretty postId) (title discussion)
         (title discussion +:+ Js.LF +:+ content post) [])
      1024 0.
Proof.
  intros Hgt. unfold postDocument. cbn [doc_segments].
  destruct (Nat.ltb_spec 500 (length (tokenize (content post)))); [done|lia].
Qed.

(** Whenever the title takes the chunk text over the ceiling that the
    content alone respects, the chunk text is kept whole, in one segment
    whose [tokenCount] is not the token count of its text. *)
Lemma postDocument_chunk_over_ceiling discussionUri discussion postId post :
  let chunk := title discussion +:+ Js.LF +:+ content post in
  length (tokenize (content post)) ≤ 500 →
  500 < length (tokenize chunk) →
  ∃ segment,
    doc_segments (postDocument discussionUri discussion postId post) = [segment]
    ∧ seg_text segment = chunk
    ∧ seg_tokenCount segment < length (tokenize (seg_text segment)).
Proof.
  intros chunk Hle Hgt. eexists. split.
  - by apply postDocument_within_ceiling.
  - cbn [seg_text seg_tokenCount]. split; [done|]. fold chunk. lia.
Qed.

End FlarumFacts.

(** C1.  The code at an English post of 500 tokens under the title
    [Bones], no staff list: the chunk text [title + "\n" + content] has
    501 tokens, above the ceiling, yet the document gets exactly one
    segment, the whole chunk text with [tokenCount] 500, and the flat
    recursive split is not run: the test reads the token count of the
    post content, not of the chunk text.  This holds whatever the case
    mapping of the engine is. *)
Theorem flarum_ceiling_tested_on_post_content (casing : Js.Casing) :
  let chunk := Flarum.title longDiscussion +:+ Js.LF +:+ Flarum.content longPost in
  length (@tokenize wordTokenizer chunk) = 501
  ∧ length (@tokenize wordTokenizer (Flarum.content longPost)) = 500
  ∧ @Flarum.docs wordTokenizer lineSplitter casing forum [longDiscussion]
    = [ {| doc_uri := "https://forum/d/7/1";
           doc_title := "Bones";
           doc_text := "";
           doc_segments := [mkSegment chunk 500 []] |} ].
Proof. vm_compute. done. Qed.

(** ** The sitemap extractor *)

Section SitemapFacts.
Context `{Engine} `{HtmlTools}.
Import Sitemap.

(** The [k]-th document of a batch carries the [k]-th URL of the batch,
    whichever page its HTML came from. *)
Lemma pagesLoop_uris `{Network} source batchUrls i htmls :
  doc_uri <$> pagesLoop source batchUrls i htmls
  = (λ k, batchUrls !!! k)
      <$> seq i (length (filter (λ html, falsy html = false) htmls)).
Proof.
  revert i. induction htmls as [|html rest IH]; intros i; [done|].
  cbn [pagesLoop]. destruct (falsy html) eqn:Hf.
  - rewrite filter_cons_False by (rewrite Hf; done). apply IH.
  - rewrite filter_cons_True by done. cbn. by rewrite IH.
Qed.

(** When every body of the batch was read, each document carries the URL
    of its own page. *)
Lemma pagesLoop_all_read `{Network} source batchUrls i htmls :
  Forall (λ html, falsy html = false) htmls →
  pagesLoop source batchUrls i htmls
  = imap (λ k html, pageDocument source (batchUrls !!! (i + k)) (default "" html))
      htmls.
Proof.
  revert i. induction htmls as [|html rest IH]; intros i Hall; [done|].
  apply Forall_cons_1 in Hall as [Hf Hrest].
  cbn [pagesLoop]. rewrite Hf. cbn. rewrite Nat.add_0_r. f_equal.
  rewrite IH by done. apply imap_ext. intros k x _. cbn.
  by replace (S (i + k)) with (i + S k) by lia.
Qed.

(** C9.  The code at the batch [pageA; pageB] when reading the body of
    [pageA] fails: the only document of the batch is built from the HTML
    fetched from [pageB], and its [uri] is [pageA], the URL of the
    skipped page. *)
Theorem sitemap_uri_of_skipped_page (source : SitemapSource) :
  @fetchWithRetry flakyNetwork _ pageA = Js.Ok (mkResponse pageA None)
  ∧ @fetchWithRetry flakyNetwork _ pageB
    = Js.Ok (mkResponse pageB (Some "<html>https://site/b</html>"))
  ∧ @batch flakyNetwork _ _ source [pageA; pageB] []
    = Js.Ok [pageDocument source pageA "<html>https://site/b</html>"]
  ∧ doc_uri (pageDocument source pageA "<html>https://site/b</html>") ≠ pageB.
Proof. by repeat split. Qed.

(** The loop stops at the first check that the probe answers. *)
Lemma scrape_stopped `{Network} source shouldStop n documents u us documents' :
  batch source (take 25 (u :: us)) documents = Js.Ok documents' →
  shouldStop n = true →
  scrape source shouldStop n documents (u :: us)
  = Js.Throw (newError "Job stopped by user").
Proof. intros Hbatch Hstop. simp scrape. rewrite Hbatch. cbn. by rewrite Hstop. Qed.

End SitemapFacts.

(** ** The job store *)

Section ProcessorFacts.
Import Processor.
Implicit Types jobs : gmap string ProcessingJob.

Lemma foldr_older_elem (l : list (string * ProcessingJob)) kj :
  foldr (λ candidate best, Some (from_option (older candidate) candidate best))
    None l = Some kj →
  kj ∈ l.
Proof.
  revert kj. induction l as [|c l IH]; intros kj; [done|].
  cbn [foldr]. destruct (foldr _ None l) as [best|] eqn:Hbest; cbn.
  - intros [= <-]. unfold older. case_match.
    + apply list_elem_of_here.
    + apply list_elem_of_further. by apply IH.
  - intros [= <-]. apply list_elem_of_here.
Qed.

(** The claimed job is a job of the collection in state [waiting]. *)
Lemma oldestWaiting_Some jobs jobId job :
  oldestWaiting jobs = Some (jobId, job) →
  jobs !! jobId = Some job ∧ job_state job = waiting.
Proof.
  intros Hsome%foldr_older_elem.
  apply list_elem_of_filter in Hsome as [Hstate Hin].
  by apply elem_of_map_to_list in Hin.
Qed.

Lemma getNextJob_claims now jobs jobs' jobId job :
  getNextJob now jobs = (jobs', Some (jobId, job)) →
  ∃ old, jobs !! jobId = Some old ∧ job_state old = waiting
         ∧ job = setClaimed now old ∧ jobs' = <[jobId := job]> jobs.
Proof.
  unfold getNextJob. destruct (oldestWaiting jobs) as [[k old]|] eqn:Hold; [|done].
  intros [= <- <- <-]. apply oldestWaiting_Some in Hold as [Hk Hw]. eauto.
Qed.

Lemma recover_lookup now jobs jobId :
  recover now jobs !! jobId
  = (λ job, if decide (job_state job = running)
            then setFinished stopped now job else job) <$> jobs !! jobId.
Proof. unfold recover. apply lookup_fmap. Qed.

Lemma errorText_stack message stack :
  errorText (Js.Error message (Some stack)) = stack.
Proof. reflexivity. Qed.

Lemma errorText_message message : errorText (Js.Error message None) = message.
Proof. reflexivity. Qed.

(** When [finishJob] rejects the block leaves by its exception and the
    state of the job is not written. *)
Lemma catchBlock_rejected logUp now job e jobs :
  catchBlock logUp false now job e jobs = None.
Proof. reflexivity. Qed.


(** C5.  When the start-up function gets to [processor.process()], every
    job that was [running] is stored as [stopped] with [finishedAt = now],
    the other jobs are as they were, and no job of the collection is
    [running].  From there on, whatever the scheduler loop does to the
    store (claiming, logging, finishing), a job that was [running] before
    start-up stays as the recovery stored it. *)
Theorem crash_recovery_before_claims (up : bool) (now : Z) jobs jobs0 :
  main up now jobs = Some jobs0 →
  (∀ jobId job, jobs !! jobId = Some job → job_state job = running →
     jobs0 !! jobId = Some (setFinished stopped now job))
  ∧ (∀ jobId job, jobs !! jobId = Some job → job_state job ≠ running →
       jobs0 !! jobId = Some job)
  ∧ (∀ jobId job, jobs0 !! jobId = Some job → job_state job ≠ running)
  ∧ ∀ s, rtc step (jobs0, ∅) s →
      ∀ jobId job, jobs !! jobId = Some job → job_state job = running →
        s.1 !! jobId = Some (setFinished stopped now job).
Proof.
  unfold main. destruct up; [|done]. intros [= <-].
  assert (Horphan : ∀ jobId job, jobs !! jobId = Some job →
            job_state job = running →
            recover now jobs !! jobId = Some (setFinished stopped now job)).
  { intros jobId job Hjob Hrun. rewrite recover_lookup, Hjob. cbn.
    by rewrite decide_True. }
  split; [exact Horphan|]. split; [|split].
  - intros jobId job Hjob Hrun. rewrite recover_lookup, Hjob. cbn.
    by rewrite decide_False.
  - intros jobId job. rewrite recover_lookup.
    destruct (jobs !! jobId) as [old|]; [|done]. cbn.
    case_decide; by intros [= <-].
  - set (orphan jobId := ∃ job, jobs !! jobId = Some job ∧ job_state job = running).
    set (inv (s : sched) :=
           (∀ jobId job, jobs !! jobId = Some job → job_state job = running →
              s.1 !! jobId = Some (setFinished stopped now job))
           ∧ ∀ jobId, jobId ∈ s.2 → ¬ orphan jobId).
    assert (Hstep : ∀ s s', step s s' → inv s → inv s').
    { intros s s' Hs [Hstored Hclaimed]. destruct Hs as
        [now' jobs1 jobs' claimed jobId job Hget
        |jobId log jobs1 claimed Hin
        |jobId success now' jobs1 claimed Hin]; cbn [fst snd] in *.
      - apply getNextJob_claims in Hget as (old & Hold & Hwait & -> & ->).
        assert (Hfresh : ¬ orphan jobId).
        { intros (j & Hj & Hrun). rewrite (Hstored _ _ Hj Hrun) in Hold.
          injection Hold as <-. done. }
        split; cbn [fst snd].
        + intros k j Hj Hrun.
          rewrite lookup_insert_ne; [by apply Hstored|].
          intros ->. apply Hfresh. by exists j.
        + intros k [->%elem_of_singleton|Hk]%elem_of_union; [done|].
          by apply Hclaimed.
      - split; cbn [fst snd]; [|done].
        intros k j Hj Hrun. unfold updateJobLog.
        rewrite lookup_alter_ne; [by apply Hstored|].
        intros <-. apply (Hclaimed _ Hin). by exists j.
      - split; cbn [fst snd]; [|done].
        intros k j Hj Hrun. unfold finishJob.
        rewrite lookup_alter_ne; [by apply Hstored|].
        intros <-. apply (Hclaimed _ Hin). by exists j. }
    intros s Hrtc.
    assert (Hinv : inv s).
    { remember (recover now jobs, ∅) as s0 eqn:Hs0.
      assert (H0 : inv s0).
      { subst s0. split; [exact Horphan|]. cbn [snd]. set_solver. }
      clear Hs0. induction Hrtc as [|x y z Hxy _ IH]; [done|].
      apply IH. by apply (Hstep x). }
    apply Hinv.
Qed.

(** C10.  When the job record is no longer in the store, [checkJobStatus]
    returns ["stopped"] and the probe handed to the extractors answers
    [true], exactly as for a stored job whose state is [stopped]; the
    sitemap loop then throws ["Job stopped by user"] at the check that
    follows the batch. *)
Theorem deleted_job_reads_as_stopped `{Network} `{Engine} `{HtmlTools}
    (jobId : string) (store : nat → gmap string ProcessingJob) (n : nat) :
  store n !! jobId = None →
  checkJobStatus jobId (store n) = stopped
  ∧ shouldStop jobId (store n) = true
  ∧ (∀ job, job_state job = stopped →
       shouldStop jobId (<[jobId := job]> (store n)) = shouldStop jobId (store n))
  ∧ ∀ source documents u us documents',
      Sitemap.batch source (take 25 (u :: us)) documents = Js.Ok documents' →
      Sitemap.scrape source (λ k, shouldStop jobId (store k)) n documents (u :: us)
      = Js.Throw (newError "Job stopped by user").
Proof.
  intros Hgone.
  assert (Hstatus : checkJobStatus jobId (store n) = stopped)
    by (unfold checkJobStatus; by rewrite Hgone).
  assert (Hstop : shouldStop jobId (store n) = true)
    by (unfold shouldStop; by rewrite Hstatus, bool_decide_eq_true_2).
  split; [done|]. split; [done|]. split.
  - intros job Hjob. rewrite Hstop. unfold shouldStop, checkJobStatus.
    rewrite lookup_insert_eq. by apply bool_decide_eq_true_2.
  - intros source documents u us documents' Hbatch.
    by apply (scrape_stopped source _ n documents u us documents').
Qed.

End ProcessorFacts.



(** The crashed store after start-up: the orphan is stopped. *)
Lemma crash_recovery_before_claims_witness :
  Processor.recover 900 crashedStore !! "j1"
  = Some (setFinished stopped 900 orphanJob).
Proof.
  destruct (crash_recovery_before_claims true 900 crashedStore
              (Processor.recover 900 crashedStore) eq_refl) as (Horphan & _).
  apply Horphan; reflexivity.
Defined.

(** A sitemap job whose record is deleted while the first batch runs. *)
Lemma deleted_job_reads_as_stopped_witness :
  @Sitemap.scrape flakyNetwork sampleEngine plainHtml site
    (λ k, Processor.shouldStop "j9" crashedStore) 0 [] [pageB]
  = Js.Throw (@newError sampleEngine "Job stopped by user").
Proof.
  destruct (@deleted_job_reads_as_stopped flakyNetwork sampleEngine plainHtml
              "j9" (λ _, crashedStore) 0 eq_refl) as (_ & _ & _ & Hscrape).
  eapply Hscrape. reflexivity.
Defined.

(** ** The vector arrays *)

Section PipelineFacts.
Import Pipeline.
Context (source_id : string).

Lemma bind_lookup_at {A B} (f : A → list B) (size : A → nat) (l : list A)
    (k j : nat) (x : A) :
  (∀ a, length (f a) = size a) →
  l !! k = Some x →
  j < size x →
  (l ≫= f) !! (sum_list (size <$> take k l) + j) = f x !! j.
Proof.
  intros Hsize. revert k. induction l as [|a l IH]; intros k Hk Hj; [done|].
  rewrite bind_cons. destruct k as [|k]; cbn in Hk |- *.
  - injection Hk as ->. apply lookup_app_l. by rewrite Hsize.
  - rewrite lookup_app_r by (rewrite Hsize; lia).
    rewrite Hsize.
    replace (size a + sum_list (size <$> take k l) + j - size a)
      with (sum_list (size <$> take k l) + j) by lia.
    by apply IH.
Qed.

Lemma bind_length {A B} (f : A → list B) (size : A → nat) (l : list A) :
  (∀ a, length (f a) = size a) →
  length (l ≫= f) = sum_list (size <$> l).
Proof.
  intros Hsize. induction l as [|a l IH]; [done|].
  rewrite bind_cons, length_app, Hsize, IH. done.
Qed.

Lemma offset_all docs : offset docs (length docs) = sum_list (length ∘ doc_segments <$> docs).
Proof. unfold offset. by rewrite firstn_all. Qed.

Lemma ids_length docs : length (ids docs) = offset docs (length docs).
Proof.
  rewrite offset_all. apply bind_length. intros doc. apply length_imap.
Qed.

Lemma embeddings_length docs : length (embeddings docs) = offset docs (length docs).
Proof.
  rewrite offset_all. apply bind_length. intros doc. apply length_fmap.
Qed.

Lemma metadatas_length docs :
  length (metadatas source_id docs) = offset docs (length docs).
Proof.
  rewrite offset_all. apply bind_length. intros doc. apply length_imap.
Qed.

Lemma vectorDocs_length docs : length (vectorDocs docs) = offset docs (length docs).
Proof.
  rewrite offset_all. apply bind_length. intros doc. apply length_fmap.
Qed.

(** Every position of the flat arrays is the position of a segment. *)
Lemma offset_covers docs i :
  i < offset docs (length docs) →
  ∃ k doc j seg,
    docs !! k = Some doc ∧ doc_segments doc !! j = Some seg
    ∧ i = offset docs k + j.
Proof.
  rewrite offset_all. revert i.
  induction docs as [|d docs IH]; intros i Hi; cbn in Hi; [lia|].
  destruct (decide (i < length (doc_segments d))) as [Hlt|Hge].
  - destruct (lookup_lt_is_Some_2 _ _ Hlt) as [seg Hseg].
    by exists 0, d, i, seg.
  - destruct (IH (i - length (doc_segments d))) as (k & doc & j & seg & Hk & Hj & Hi');
      [lia|].
    exists (S k), doc, j, seg. split; [done|]. split; [done|].
    unfold offset in *. cbn. lia.
Qed.

(** C6.  The four arrays built from the extracted documents have the same
    length, the number of segments of all the documents.  The segment
    number [j] of the document number [k] sits in each of them at the same
    position, after all the segments of the earlier documents and the
    earlier segments of its own document: there the id is
    [uri + "|" + j], and the embedding, the metadata and the text are
    those of that segment.  Every position is filled this way. *)
Theorem vector_arrays_aligned (docs : list EmbedderDocument) :
  length (embeddings docs) = length (ids docs)
  ∧ length (metadatas source_id docs) = length (ids docs)
  ∧ length (vectorDocs docs) = length (ids docs)
  ∧ (∀ i, i < length (ids docs) →
       ∃ k doc j seg,
         docs !! k = Some doc ∧ doc_segments doc !! j = Some seg
         ∧ i = offset docs k + j)
  ∧ ∀ k doc j seg,
      docs !! k = Some doc →
      doc_segments doc !! j = Some seg →
      let i := offset docs k + j in
      ids docs !! i = Some (doc_uri doc +:+ "|" +:+ pretty j)
      ∧ embeddings docs !! i = Some (seg_embedding seg)
      ∧ metadatas source_id docs !! i
        = Some {| sourceId := source_id;
                  docUri := doc_uri doc;
                  docTitle := doc_title doc;
                  index := j;
                  tokenCount := seg_tokenCount seg |}
      ∧ vectorDocs docs !! i = Some (seg_text seg).
Proof.
  rewrite embeddings_length, metadatas_length, vectorDocs_length, ids_length.
  split; [done|]. split; [done|]. split; [done|].
  split; [apply offset_covers|].
  intros k doc j seg Hk Hj i.
  assert (Hlt : j < (length ∘ doc_segments) doc)
    by (cbn; by eapply lookup_lt_Some).
  unfold i, offset, ids, embeddings, metadatas, vectorDocs.
  rewrite !(bind_lookup_at _ (length ∘ doc_segments) docs k j doc);
    try done; try (intros a; cbn; by rewrite ?length_imap, ?length_fmap).
  rewrite !list_lookup_imap, !list_lookup_fmap, Hj. done.
Qed.

End PipelineFacts.

(** The arrays of two documents of two and of one segment: the segment of
    the second document sits at position 2 of each array. *)
Lemma vector_arrays_aligned_witness :
  Pipeline.ids smallDocs !! 2 = Some "https://site/b|0"
  ∧ Pipeline.embeddings smallDocs !! 2 = Some [3%float]
  ∧ Pipeline.metadatas "s1" smallDocs !! 2
    = Some (Pipeline.mkMetadata "s1" "https://site/b" "B" 0 1)
  ∧ Pipeline.vectorDocs smallDocs !! 2 = Some "b0".
Proof.
  destruct (vector_arrays_aligned "s1" smallDocs) as (_ & _ & _ & _ & Hat).
  exact (Hat 1 (mkDocument "https://site/b" "B" "" [mkSegment "b0" 1 [3%float]])
           0 (mkSegment "b0" 1 [3%float]) eq_refl eq_refl).
Defined.

(** ** The batched upsert *)

Section UpsertFacts.
Import Pipeline.
Context (source_id : string).

Lemma batchSize_pos : 0 < batchSize.
Proof. unfold batchSize. lia. Qed.

Lemma upsertLoop_cons total numProcessed x xs embeddings metadatas vectorDocs :
  upsertLoop source_id total numProcessed (x :: xs) embeddings metadatas vectorDocs
  = Upsert (take batchSize (x :: xs)) (take batchSize embeddings)
      (take batchSize metadatas) (take batchSize vectorDocs)
    :: Logged (progressMessage source_id total
                 (numProcessed + length (take batchSize (x :: xs))))
    :: upsertLoop source_id total
         (numProcessed + length (take batchSize (x :: xs)))
         (drop batchSize (x :: xs)) (drop batchSize embeddings)
         (drop batchSize metadatas) (drop batchSize vectorDocs).
Proof. by simp upsertLoop. Qed.

Lemma batchSizesOf_0 : batchSizesOf 0 = [].
Proof. unfold batchSizesOf. by rewrite Nat.Div0.div_0_l, Nat.Div0.mod_0_l. Qed.

Lemma batchSizesOf_step n :
  0 < n →
  batchSizesOf n = min batchSize n :: batchSizesOf (n - batchSize).
Proof.
  unfold batchSizesOf. generalize batchSize batchSize_pos. intros b Hb Hn.
  destruct (decide (n < b)) as [Hlt|Hge].
  - replace (n - b) with 0 by lia.
    rewrite Nat.Div0.div_0_l, Nat.Div0.mod_0_l.
    rewrite Nat.div_small, Nat.mod_small by done.
    destruct (Nat.eqb_spec n 0); [lia|]. cbn. f_equal. lia.
  - assert (Hn' : n = 1 * b + (n - b)) by lia.
    assert (Hdiv : n / b = S ((n - b) / b)).
    { rewrite Hn' at 1. rewrite Nat.div_add_l by lia. done. }
    assert (Hmod : n mod b = (n - b) mod b).
    { rewrite Hn' at 1. by rewrite (Nat.add_comm (1 * b)), Nat.Div0.mod_add. }
    rewrite Hdiv, Hmod. cbn [replicate app]. f_equal. lia.
Qed.

Lemma upsertSizes_loop total numProcessed ids embeddings metadatas vectorDocs :
  upsertSizes (upsertLoop source_id total numProcessed ids embeddings metadatas vectorDocs)
  = batchSizesOf (length ids).
Proof.
  funelim (upsertLoop source_id total numProcessed ids embeddings metadatas vectorDocs).
  - simp upsertLoop. symmetry. apply batchSizesOf_0.
  - unfold upsertSizes in *. rewrite !bind_cons. cbn [app].
    match goal with IH : _ ≫= _ = batchSizesOf _ |- _ => rewrite IH end.
    rewrite (batchSizesOf_step (length (x :: xs))) by (cbn; lia).
    by rewrite length_take, length_drop.
Qed.

Lemma paired_loop total numProcessed ids embeddings metadatas vectorDocs :
  paired (upsertLoop source_id total numProcessed ids embeddings metadatas vectorDocs).
Proof.
  funelim (upsertLoop source_id total numProcessed ids embeddings metadatas vectorDocs);
    [by simp upsertLoop|done].
Qed.

Lemma loggedMessages_loop total numProcessed ids embeddings metadatas vectorDocs :
  loggedMessages (upsertLoop source_id total numProcessed ids embeddings metadatas vectorDocs)
  = progressMessage source_id total
      <$> runningTotals numProcessed (batchSizesOf (length ids)).
Proof.
  funelim (upsertLoop source_id total numProcessed ids embeddings metadatas vectorDocs).
  - simp upsertLoop. cbn [length]. by rewrite batchSizesOf_0.
  - unfold loggedMessages in *. rewrite !bind_cons. cbn [app].
    match goal with IH : _ ≫= _ = _ <$> _ |- _ => rewrite IH end.
    rewrite (batchSizesOf_step (length (x :: xs))) by (cbn; lia).
    cbn [runningTotals fmap list_fmap].
    by rewrite length_take, length_drop.
Qed.

Lemma records_take n ids embeddings metadatas vectorDocs :
  records (take n ids) (take n embeddings) (take n metadatas) (take n vectorDocs)
  = take n (records ids embeddings metadatas vectorDocs).
Proof. unfold records. by rewrite !zip_with_take. Qed.

Lemma records_drop n ids embeddings metadatas vectorDocs :
  records (drop n ids) (drop n embeddings) (drop n metadatas) (drop n vectorDocs)
  = drop n (records ids embeddings metadatas vectorDocs).
Proof. unfold records. by rewrite !zip_with_drop. Qed.

Lemma written_loop total numProcessed ids embeddings metadatas vectorDocs :
  written (upsertLoop source_id total numProcessed ids embeddings metadatas vectorDocs)
  = records ids embeddings metadatas vectorDocs.
Proof.
  funelim (upsertLoop source_id total numProcessed ids embeddings metadatas vectorDocs).
  - by simp upsertLoop.
  - unfold written in *. rewrite !bind_cons. cbn [app].
    match goal with IH : _ ≫= _ = records _ _ _ _ |- _ => rewrite IH end.
    by rewrite records_take, records_drop, take_drop.
Qed.

Lemma batchSizesOf_bounds n :
  Forall (λ size, 0 < size ≤ batchSize) (batchSizesOf n).
Proof.
  unfold batchSizesOf. generalize batchSize batchSize_pos. intros b Hb.
  apply Forall_app. split.
  - apply Forall_replicate. lia.
  - destruct (Nat.eqb_spec (n mod b) 0); [done|].
    apply Forall_singleton.
    pose proof (Nat.mod_upper_bound n b). lia.
Qed.

Lemma batchSizesOf_sum n : sum_list (batchSizesOf n) = n.
Proof.
  unfold batchSizesOf. generalize batchSize batchSize_pos. intros b Hb.
  rewrite sum_list_with_app, sum_list_replicate.
  pose proof (Nat.div_mod_eq n b) as Hdm.
  destruct (Nat.eqb_spec (n mod b) 0); cbn; lia.
Qed.

(** C7.  The records are upserted in batches of at most 2000 (none
    empty), every upsert directly followed by the log call of the progress
    message with the running total; the records written, batch after
    batch, are the records of the arrays in order, so that their number is
    the number of segments.  For 4500 segments there are exactly three
    upserts, of 2000, 2000 and 500 records, and the three messages count
    2000, 4000 and 4500 of 4500. *)
Theorem upsert_in_batches (docs : list EmbedderDocument) :
  let trace := write source_id docs in
  let total := length (ids docs) in
  Forall (λ size, 0 < size ≤ 2000) (upsertSizes trace)
  ∧ paired trace
  ∧ loggedMessages trace
    = progressMessage source_id total <$> runningTotals 0 (upsertSizes trace)
  ∧ written trace
    = records (ids docs) (embeddings docs) (metadatas source_id docs) (vectorDocs docs)
  ∧ length (written trace) = total
  ∧ sum_list (upsertSizes trace) = total
  ∧ (total = 4500 →
       upsertSizes trace = [2000; 2000; 500]
       ∧ loggedMessages trace
         = progressMessage source_id 4500 <$> [2000; 4000; 4500]).
Proof.
  intros trace total. unfold trace, write. fold total.
  rewrite upsertSizes_loop, loggedMessages_loop, written_loop. fold total.
  split; [apply batchSizesOf_bounds|]. split; [apply paired_loop|].
  split; [done|]. split; [done|]. split; [|split].
  - unfold records, total.
    rewrite !length_zip_with.
    rewrite embeddings_length, (metadatas_length source_id), vectorDocs_length,
      ids_length. lia.
  - apply batchSizesOf_sum.
  - intros ->. split; [by vm_compute|].
    f_equal.
Qed.

End UpsertFacts.

(** One document of 4500 segments: three upserts. *)
Lemma upsert_in_batches_witness :
  Pipeline.upsertSizes (Pipeline.write "s1" [bigDocument]) = [2000; 2000; 500].
Proof.
  destruct (upsert_in_batches "s1" [bigDocument]) as (_ & _ & _ & _ & _ & _ & Hbig).
  apply Hbig. vm_compute. reflexivity.
Defined.

(** * Further properties of the code *)

(** ** [fetchWithRetry] *)

Section FetchFacts.
Context `{Network} `{Engine}.

Lemma fetchLoop_Ok url tries k0 r :
  fetchLoop url tries k0 = Js.Ok r ↔
  ∃ k, k0 ≤ k < k0 + tries ∧ attempt url k = Some r
       ∧ ∀ j, k0 ≤ j < k → attempt url j = None.
Proof.
  revert k0. induction tries as [|tries IH]; intros k0; cbn [fetchLoop].
  - split; [done|]. intros (k & Hk & _). lia.
  - destruct (attempt url k0) as [r0|] eqn:Hk0.
    + split.
      * intros [= <-]. exists k0. split; [lia|]. split; [done|]. intros j Hj. lia.
      * intros (k & Hk & Hr & Hnone).
        destruct (decide (k = k0)) as [->|Hne]; [congruence|].
        rewrite Hnone in Hk0 by lia. done.
    + rewrite IH. split.
      * intros (k & Hk & Hr & Hnone). exists k. split; [lia|]. split; [done|].
        intros j Hj. destruct (decide (j = k0)) as [->|]; [done|].
        apply Hnone. lia.
      * intros (k & Hk & Hr & Hnone). exists k.
        assert (k ≠ k0) by congruence.
        split; [lia|]. split; [done|]. intros j Hj. apply Hnone. lia.
Qed.

Lemma fetchLoop_Throw url tries k0 e :
  fetchLoop url tries k0 = Js.Throw e ↔
  e = newError ("Could not fetch " +:+ url)
  ∧ ∀ k, k0 ≤ k < k0 + tries → attempt url k = None.
Proof.
  revert k0. induction tries as [|tries IH]; intros k0; cbn [fetchLoop].
  - split; [|by intros [-> _]]. intros [= <-]. split; [done|]. intros k Hk. lia.
  - destruct (attempt url k0) as [r0|] eqn:Hk0.
    + split; [done|]. intros [_ Hnone]. rewrite Hnone in Hk0 by lia. done.
    + rewrite IH. split; intros [-> Hnone]; (split; [done|]); intros k Hk.
      * destruct (decide (k = k0)) as [->|]; [done|]. apply Hnone. lia.
      * apply Hnone. lia.
Qed.

(** X1.  [fetchWithRetry] makes at most five attempts: it returns the
    response of the first attempt that is answered, and it throws
    ["Could not fetch " + url], and nothing else, exactly when the five
    attempts all reject. *)
Theorem fetchWithRetry_first_answer (url : string) :
  (∀ r, fetchWithRetry url = Js.Ok r ↔
        ∃ k, k < 5 ∧ attempt url k = Some r ∧ ∀ j, j < k → attempt url j = None)
  ∧ (∀ e, fetchWithRetry url = Js.Throw e ↔
          e = newError ("Could not fetch " +:+ url)
          ∧ ∀ k, k < 5 → attempt url k = None).
Proof.
  unfold fetchWithRetry. split.
  - intros r. rewrite fetchLoop_Ok. split; intros (k & Hk & Hr & Hnone);
      exists k; (split; [lia|]); (split; [done|]); intros j Hj; apply Hnone; lia.
  - intros e. rewrite fetchLoop_Throw. split; intros [-> Hnone];
      (split; [done|]); intros k Hk; apply Hnone; lia.
Qed.

End FetchFacts.

(** ** The Flarum extractor: filters and post numbers *)

Section FlarumMoreFacts.
Context `{Tokenizer} `{TextSplitter} `{Js.Casing}.
Import Flarum.

Lemma postsLoop_filter staff discussionUri discussion postId posts :
  postsLoop staff discussionUri discussion postId posts
  = imap (λ j post, postDocument discussionUri discussion (postId + j) post)
      (filter (λ post, survives staff post = true) posts).
Proof.
  revert postId. induction posts as [|post rest IH]; intros postId; [done|].
  cbn [postsLoop]. destruct (survives staff post) eqn:Hs.
  - rewrite filter_cons_True by done. cbn [imap]. rewrite Nat.add_0_r. f_equal.
    rewrite IH. apply imap_ext. intros j p _. cbn.
    by replace (S (postId + j)) with (postId + S j) by lia.
  - rewrite filter_cons_False by (rewrite Hs; done). apply IH.
Qed.

(** X2.  The documents of a discussion are those of its surviving posts,
    in order, and the document number [j] (from 0) has the uri
    [discussionUri + "/" + (j + 1)]: the number in the uri counts the
    surviving posts, not the posts of the discussion. *)
Theorem flarum_post_numbers_count_survivors (staff : gset string)
    (discussionUri : string) (discussion : FlarumDiscussion)
    (posts : list FlarumPost) :
  let kept := filter (λ post, survives staff post = true) posts in
  let docs := postsLoop staff discussionUri discussion 1 posts in
  length docs = length kept
  ∧ (∀ j, docs !! j
          = (λ post, postDocument discussionUri discussion (S j) post) <$> kept !! j)
  ∧ ∀ j doc, docs !! j = Some doc →
             doc_uri doc = discussionUri +:+ "/" +:+ pretty (S j)
             ∧ doc_title doc = title discussion
             ∧ doc_text doc = "".
Proof.
  intros kept docs. unfold docs. rewrite postsLoop_filter. fold kept.
  split; [apply length_imap|]. split.
  - intros j. by rewrite list_lookup_imap.
  - intros j doc. rewrite list_lookup_imap.
    destruct (kept !! j) as [post|]; [|done]. by intros [= <-].
Qed.

(** X3.  A post passes the filters exactly when its detected language is
    ["en"] and either the staff list of the source is empty or the user
    name and some staff name have the same [toLowerCase], whatever the
    case mapping of the engine is. *)
Theorem flarum_filters (staffNames : list string) (post : FlarumPost) :
  survives (list_to_set (Js.toLowerCase <$> staffNames)) post = true ↔
  detectedLang post = "en"
  ∧ (staffNames = []
     ∨ ∃ name, name ∈ staffNames
               ∧ Js.toLowerCase name = Js.toLowerCase (userName post)).
Proof.
  unfold survives. set (staff := list_to_set _ : gset string).
  assert (Hin : Js.toLowerCase (userName post) ∈ staff ↔
                ∃ name, name ∈ staffNames
                        ∧ Js.toLowerCase name = Js.toLowerCase (userName post)).
  { unfold staff. rewrite elem_of_list_to_set, list_elem_of_fmap.
    split; intros (name & ? & ?); exists name; done. }
  assert (Hsize : 0 < size staff ↔ staffNames ≠ []).
  { destruct staffNames as [|name rest].
    - unfold staff. cbn. rewrite size_empty. split; [lia|done].
    - split; [done|]. intros _.
      assert (Hname : Js.toLowerCase name ∈ staff).
      { unfold staff. apply elem_of_list_to_set. cbn. apply list_elem_of_here. }
      destruct (decide (size staff = 0)) as [Hz|]; [|lia].
      apply size_empty_inv in Hz. rewrite Hz in Hname.
      by apply elem_of_empty in Hname. }
  case_bool_decide as Hlang.
  - split; [done|]. by intros [? _].
  - case_bool_decide as Hpos; cbn.
    + case_bool_decide as Hmem; cbn.
      * split; [|done]. intros _. split; [done|]. right. by apply Hin.
      * split; [done|]. intros [_ [->|Hex]].
        -- apply Hsize in Hpos. done.
        -- by apply Hin in Hex.
    + split; [|done]. intros _. split; [done|]. left.
      destruct staffNames; [done|]. exfalso. apply Hpos, Hsize. done.
Qed.

End FlarumMoreFacts.

(** ** The sitemap extractor: URL selection and the scraping loop *)

Section SelectFacts.
Context `{Glob}.
Import SitemapUrls.


End SelectFacts.

Section ScrapeFacts.
Context `{Network} `{Engine} `{HtmlTools}.
Import Sitemap.

Lemma forEach_Ok {A B} (f : A → Js.result B) (g : A → B) (xs : list A) :
  (∀ x, x ∈ xs → f x = Js.Ok (g x)) →
  Js.forEach f xs = Js.Ok (g <$> xs).
Proof.
  induction xs as [|x xs IH]; intros Hall; [done|].
  cbn [Js.forEach]. rewrite Hall by apply list_elem_of_here. cbn.
  rewrite IH; [done|]. intros y Hy. apply Hall. by apply list_elem_of_further.
Qed.

Lemma forEach_Throw {A B} (f : A → Js.result B) (xs : list A) x0 e0 :
  x0 ∈ xs → f x0 = Js.Throw e0 →
  ∃ x e, x ∈ xs ∧ f x = Js.Throw e ∧ Js.forEach f xs = Js.Throw e.
Proof.
  induction xs as [|x xs IH]; intros Hin Hf; [by apply elem_of_nil in Hin|].
  cbn [Js.forEach]. destruct (f x) as [y|e] eqn:Hx.
  - apply elem_of_cons in Hin as [->|Hin]; [congruence|].
    destruct (IH Hin Hf) as (x' & e & Hx' & Hfx' & Hrun).
    exists x', e. split; [by apply list_elem_of_further|]. split; [done|].
    cbn. by rewrite Hrun.
  - exists x, e. split; [apply list_elem_of_here|]. done.
Qed.

(** A batch whose bodies are all read and not empty. *)
Lemma batch_all_read source (page : string → string) batchUrls documents :
  (∀ u, u ∈ batchUrls →
     ∃ r, fetchWithRetry u = Js.Ok r ∧ response_text r = Some (page u)
          ∧ Js.nonempty (page u) = true) →
  batch source batchUrls documents
  = Js.Ok (documents ++ ((λ u, pageDocument source u (page u)) <$> batchUrls)).
Proof.
  intros Hall. unfold batch.
  set (resp u := match fetchWithRetry u with
                 | Js.Ok r => r
                 | Js.Throw _ => mkResponse u None
                 end).
  rewrite (forEach_Ok fetchWithRetry resp).
  2:{ intros u Hu. destruct (Hall u Hu) as (r & Hr & _). unfold resp. by rewrite Hr. }
  cbn. do 2 f_equal.
  assert (Htext : ∀ k u, batchUrls !! k = Some u →
            response_text (resp u) = Some (page u) ∧ Js.nonempty (page u) = true).
  { intros k u Hk. destruct (Hall u) as (r & Hr & Ht & Hne);
      [by eapply list_elem_of_lookup_2|].
    unfold resp. by rewrite Hr. }
  rewrite pagesLoop_all_read.
  - apply list_eq. intros k.
    rewrite list_lookup_imap, !list_lookup_fmap.
    destruct (batchUrls !! k) as [u|] eqn:Hk; [|done]. cbn.
    destruct (Htext k u Hk) as [-> _]. cbn.
    by rewrite (list_lookup_total_correct _ _ _ Hk).
  - apply Forall_forall. intros html [u [-> Hu]]%list_elem_of_fmap.
    apply list_elem_of_fmap in Hu as [u' [-> Hu']].
    apply list_elem_of_lookup in Hu' as [k Hk].
    destruct (Htext k u' Hk) as [-> Hne]. cbn. by rewrite Hne.
Qed.

Lemma scrape_all_read_aux source shouldStop (page : string → string) m :
  (∀ n, shouldStop n = false) →
  ∀ urls n documents,
    length urls ≤ m →
    (∀ u, u ∈ urls →
       ∃ r, fetchWithRetry u = Js.Ok r ∧ response_text r = Some (page u)
            ∧ Js.nonempty (page u) = true) →
    scrape source shouldStop n documents urls
    = Js.Ok (documents ++ ((λ u, pageDocument source u (page u)) <$> urls)).
Proof.
  intros Hgo. induction m as [|m IH]; intros urls n documents Hlen Hall.
  - destruct urls; [|cbn in Hlen; lia]. simp scrape. by rewrite app_nil_r.
  - destruct urls as [|u us]; [simp scrape; by rewrite app_nil_r|].
    simp scrape. rewrite (batch_all_read source page).
    2:{ intros v Hv. apply Hall. by apply (subseteq_take 25). }
    cbn [Js.bind]. rewrite Hgo. rewrite IH.
    + rewrite <- app_assoc, <- fmap_app, take_drop. done.
    + rewrite length_drop. cbn in Hlen |- *. lia.
    + intros v Hv. apply Hall. by apply (subseteq_drop 25).
Qed.

(** X5.  When the probe never asks to stop and every page of the sitemap
    is fetched within five attempts with a body that is read and not
    empty, the scraping loop returns one document per URL, in the order
    of the URLs, each with the [uri] of its own page. *)
Theorem scrape_all_read source shouldStop (page : string → string)
    (urls : list string) :
  (∀ n, shouldStop n = false) →
  (∀ u, u ∈ urls →
     ∃ r, fetchWithRetry u = Js.Ok r ∧ response_text r = Some (page u)
          ∧ Js.nonempty (page u) = true) →
  scrape source shouldStop 0 [] urls
  = Js.Ok ((λ u, pageDocument source u (page u)) <$> urls)
  ∧ doc_uri <$> ((λ u, pageDocument source u (page u)) <$> urls) = urls.
Proof.
  intros Hgo Hall. split.
  - by rewrite (scrape_all_read_aux source shouldStop page (length urls)).
  - rewrite <- list_fmap_compose. apply list_fmap_id.
Qed.

(** X6.  One page of the first batch that cannot be fetched in five
    attempts makes the whole extraction fail with ["Could not fetch "]
    and the URL of such a page: no document is returned, whatever the
    other pages and the cancellation probe. *)
Theorem scrape_dead_link source shouldStop n documents (urls : list string)
    (dead : string) :
  dead ∈ take 25 urls →
  (∀ k, k < 5 → attempt dead k = None) →
  ∃ u, u ∈ take 25 urls
       ∧ (∀ k, k < 5 → attempt u k = None)
       ∧ scrape source shouldStop n documents urls
         = Js.Throw (newError ("Could not fetch " +:+ u)).
Proof.
  intros Hin Hdead.
  assert (Hthrow : fetchWithRetry dead
                   = Js.Throw (newError ("Could not fetch " +:+ dead))).
  { apply fetchLoop_Throw. split; [done|]. intros k Hk. apply Hdead. lia. }
  destruct (forEach_Throw fetchWithRetry _ _ _ Hin Hthrow)
    as (u & e & Hu & Hfu & Hrun).
  apply fetchLoop_Throw in Hfu as [-> Hnone].
  exists u. split; [done|]. split; [intros k Hk; apply Hnone; lia|].
  destruct urls as [|u0 us]; [by apply elem_of_nil in Hin|].
  simp scrape. unfold batch. by rewrite Hrun.
Qed.

End ScrapeFacts.

(** Two pages, each answered at the third attempt. *)
Lemma scrape_all_read_witness :
  @Sitemap.scrape slowNetwork sampleEngine plainHtml site (λ _, false) 0 []
    [pageA; pageB]
  = Js.Ok [ @Sitemap.pageDocument plainHtml site pageA ("<html>" +:+ pageA +:+ "</html>");
            @Sitemap.pageDocument plainHtml site pageB ("<html>" +:+ pageB +:+ "</html>") ].
Proof.
  refine (proj1 (@scrape_all_read slowNetwork sampleEngine plainHtml site
                   (λ _, false) (λ u, "<html>" +:+ u +:+ "</html>")
                   [pageA; pageB] _ _)).
  - reflexivity.
  - intros u _. exists (mkResponse u (Some ("<html>" +:+ u +:+ "</html>"))).
    repeat split; reflexivity.
Defined.

(** Page [a] is never answered: the extraction of both pages fails. *)
Lemma scrape_dead_link_witness :
  ∃ u, u ∈ take 25 [pageB; pageA]
       ∧ (∀ k, k < 5 → @attempt deadNetwork u k = None)
       ∧ @Sitemap.scrape deadNetwork sampleEngine plainHtml site (λ _, false) 0 []
           [pageB; pageA]
         = Js.Throw (@newError sampleEngine ("Could not fetch " +:+ u)).
Proof.
  apply (@scrape_dead_link deadNetwork sampleEngine plainHtml site (λ _, false)
           0 [] [pageB; pageA] pageA).
  - cbn [take]. apply list_elem_of_further, list_elem_of_here.
  - intros k _. reflexivity.
Defined.

(** ** The scheduler: claiming, logging, finishing *)

Section SchedulerFacts.
Import Processor.
Implicit Types jobs : gmap string ProcessingJob.

Lemma foldr_older_None (l : list (string * ProcessingJob)) :
  foldr (λ candidate best, Some (from_option (older candidate) candidate best))
    None l = None →
  l = [].
Proof. by destruct l. Qed.

Lemma foldr_older_least (l : list (string * ProcessingJob)) kj :
  foldr (λ candidate best, Some (from_option (older candidate) candidate best))
    None l = Some kj →
  ∀ c, c ∈ l → (job_createdAt kj.2 ≤ job_createdAt c.2)%Z.
Proof.
  revert kj. induction l as [|c0 l IH]; intros kj; [done|].
  cbn [foldr]. destruct (foldr _ None l) as [best|] eqn:Hbest; cbn.
  - intros [= <-] c Hc. unfold older.
    destruct (Z.leb_spec (job_createdAt c0.2) (job_createdAt best.2)).
    + apply elem_of_cons in Hc as [->|Hc]; [lia|].
      specialize (IH best eq_refl c Hc). lia.
    + apply elem_of_cons in Hc as [->|Hc]; [lia|].
      by apply IH.
  - intros [= <-] c Hc. apply foldr_older_None in Hbest as ->.
    apply elem_of_cons in Hc as [->|Hc]; [lia|]. by apply elem_of_nil in Hc.
Qed.

(** X7.  [getNextJob] returns no job, and writes nothing, exactly when no
    job is waiting.  Otherwise it claims a waiting job whose [createdAt]
    is the least among the waiting jobs: that job, and no other, is
    stored and returned with [state = running] and [startedAt = now],
    its other fields as they were. *)
Theorem getNextJob_oldest_waiting (now : Z) jobs :
  match getNextJob now jobs with
  | (jobs', None) =>
      jobs' = jobs ∧ ∀ jobId job, jobs !! jobId = Some job → job_state job ≠ waiting
  | (jobs', Some (jobId, job)) =>
      ∃ old,
        jobs !! jobId = Some old
        ∧ job_state old = waiting
        ∧ job = setClaimed now old
        ∧ job_state job = running
        ∧ job_startedAt job = Some now
        ∧ job_sourceId job = job_sourceId old
        ∧ job_log job = job_log old
        ∧ job_createdAt job = job_createdAt old
        ∧ job_finishedAt job = job_finishedAt old
        ∧ jobs' !! jobId = Some job
        ∧ jobs' = <[jobId := job]> jobs
        ∧ (∀ other, other ≠ jobId → jobs' !! other = jobs !! other)
        ∧ ∀ jobId' job', jobs !! jobId' = Some job' → job_state job' = waiting →
            (job_createdAt old ≤ job_createdAt job')%Z
  end.
Proof.
  unfold getNextJob, oldestWaiting.
  destruct (foldr _ None _) as [[jobId old]|] eqn:Hfold.
  - pose proof (foldr_older_elem _ _ Hfold) as Hin.
    apply list_elem_of_filter in Hin as [Hwait Hin].
    apply elem_of_map_to_list in Hin.
    exists old. split; [done|]. split; [done|]. split; [done|].
    do 6 (split; [done|]). split; [by apply lookup_insert_eq|]. split; [done|].
    split; [intros other Hother; by apply lookup_insert_ne|].
    intros jobId' job' Hjob' Hwait'.
    apply (foldr_older_least _ _ Hfold (jobId', job')).
    apply list_elem_of_filter. split; [done|]. by apply elem_of_map_to_list.
  - split; [done|]. intros jobId job Hjob Hwait.
    apply foldr_older_None in Hfold.
    assert (Hin : (jobId, job) ∈ filter (λ kj, job_state kj.2 = waiting)
                                   (map_to_list jobs)).
    { apply list_elem_of_filter. split; [done|]. by apply elem_of_map_to_list. }
    rewrite Hfold in Hin. by apply elem_of_nil in Hin.
Qed.

(** X8.  A log write stores the whole in-memory log, not the new message
    alone: a message whose write was rejected is stored by the next write
    that is answered, and what the store held as log before is
    replaced. *)
Theorem log_writes_whole_log (job : string * ProcessingJob)
    (message1 message2 : string) jobs (stored : ProcessingJob) :
  jobs !! job.1 = Some stored →
  let first := log false job message1 jobs in
  let second := log true first.1 message2 jobs in
  first.2 = None
  ∧ job_log second.1.2
    = job_log job.2 +:+ message1 +:+ Js.LF +:+ message2 +:+ Js.LF
  ∧ ∃ jobs',
      second.2 = Some jobs'
      ∧ jobs' !! job.1 = Some (setLog (job_log second.1.2) stored)
      ∧ ∀ other, other ≠ job.1 → jobs' !! other = jobs !! other.
Proof.
  intros Hstored first second. unfold second, first, log, updateJobLog.
  cbn [fst snd storeCall setLog job_log].
  split; [done|]. split; [by rewrite !app_assoc_string|].
  eexists. split; [done|]. split.
  - by rewrite lookup_alter_eq, Hstored.
  - intros other Hother. by apply lookup_alter_ne.
Qed.

(** X9.  A job whose processing ends without exception is stored as
    [succeeded] with [finishedAt = now] whatever its stored state was,
    [stopped] by a user included, and its stored log is left alone.  When
    that write is rejected the handler runs with the rejection: if its
    own write is answered the job is stored as [failed]. *)
Theorem perJob_without_exception (logUp : bool) (rejection : Js.thrown)
    (now : Z) (job : string * ProcessingJob) jobs (stored : ProcessingJob) :
  jobs !! job.1 = Some stored →
  perJob true logUp true rejection now job (Js.Ok ()) jobs
  = Some (<[job.1 := setFinished succeeded now stored]> jobs)
  ∧ ∃ jobs',
      perJob false logUp true rejection now job (Js.Ok ()) jobs = Some jobs'
      ∧ ∃ stored', jobs' !! job.1 = Some stored' ∧ job_state stored' = failed.
Proof.
  intros Hstored. split.
  - cbn [perJob]. f_equal. unfold finishJob. apply map_eq. intros k.
    destruct (decide (k = job.1)) as [->|Hne].
    + by rewrite lookup_alter_eq, lookup_insert_eq, Hstored.
    + by rewrite lookup_alter_ne, lookup_insert_ne.
  - cbn [perJob]. unfold catchBlock, finishJob, log, updateJobLog.
    cbn [fst snd storeCall]. eexists. split; [done|].
    destruct logUp; cbn [storeCall from_option id].
    + rewrite !lookup_alter_eq, Hstored. cbn. eauto.
    + rewrite lookup_alter_eq, Hstored. cbn. eauto.
Qed.

End SchedulerFacts.

(** A rejected write of ["fetching"] followed by an answered write of
    ["done"]: the stored log has both lines. *)
Lemma log_writes_whole_log_witness :
  let first := Processor.log false ("j1", orphanJob) "fetching" crashedStore in
  let second := Processor.log true first.1 "done" crashedStore in
  ∃ jobs',
    second.2 = Some jobs'
    ∧ jobs' !! "j1"
      = Some (setLog (job_log orphanJob +:+ "fetching" +:+ Js.LF +:+ "done" +:+ Js.LF)
                orphanJob).
Proof.
  intros first second.
  destruct (log_writes_whole_log ("j1", orphanJob) "fetching" "done" crashedStore
              orphanJob eq_refl) as (_ & Hlog & jobs' & Hwrite & Hstored & _).
  exists jobs'. split; [exact Hwrite|].
  etransitivity; [exact Hstored|]. apply f_equal, (f_equal (λ l, setLog l orphanJob)).
  exact Hlog.
Defined.

(** The job of the crashed store, processed without exception. *)
Lemma perJob_without_exception_witness :
  Processor.perJob true true true (Js.Other "{}") 900 ("j1", orphanJob)
    (Js.Ok ()) crashedStore
  = Some (<["j1" := setFinished succeeded 900 orphanJob]> crashedStore).
Proof.
  exact (proj1 (perJob_without_exception true (Js.Other "{}") 900
                  ("j1", orphanJob) crashedStore orphanJob eq_refl)).
Defined.

(** ** The document database *)

Section DatabaseFacts.
Context `{ObjectIds} `{Engine} {E : Type} `{Fields E}.
Import Database.
Implicit Types documents : gmap string E.

Lemma getOne_connected kind id documents key :
  objectId id = Js.Ok key →
  getOne kind id (Some documents)
  = match documents !! key with
    | None => Js.Throw (newError (kind +:+ " with id " +:+ id +:+ " does not exist"))
    | Some document => Js.Ok (key, document)
    end.
Proof. intros Hkey. unfold getOne. cbn. by rewrite Hkey. Qed.

(** X10.  An entity set without [_id] is inserted: it is returned with an
    [_id] that no document of the collection had, reading that id gives
    the entity back, and every document that was there is read as
    before. *)
Theorem set_without_id_then_get (kind : string) (entity : E) documents :
  ∃ key,
    setOne (None, entity) (Some documents)
    = Js.Ok ((Some key, entity), <[key := entity]> documents)
    ∧ documents !! key = None
    ∧ getOne kind key (Some (<[key := entity]> documents)) = Js.Ok (key, entity)
    ∧ ∀ id key' document,
        objectId id = Js.Ok key' →
        documents !! key' = Some document →
        getOne kind id (Some (<[key := entity]> documents)) = Js.Ok (key', document).
Proof.
  exists (freshId (dom documents)).
  assert (Hfresh : documents !! freshId (dom documents) = None).
  { apply not_elem_of_dom. apply freshId_fresh. }
  split; [done|]. split; [done|]. split.
  - rewrite (getOne_connected _ _ _ _ (objectId_freshId _)).
    by rewrite lookup_insert_eq.
  - intros id key' document Hid Hdoc. rewrite (getOne_connected _ _ _ _ Hid).
    rewrite lookup_insert_ne; [by rewrite Hdoc|]. intros <-. congruence.
Qed.

(** X12.  Deleting a source, chat or job removes the document of that id
    and nothing else, after which reading or deleting the same id throws
    the "does not exist" error; deleting an id that is not stored throws
    it at once.  [deleteCollection] on an id that is not stored returns
    normally and changes nothing. *)
Theorem delete_then_missing (kind id key : string) documents :
  objectId id = Js.Ok key →
  let missing :=
    newError (kind +:+ " with id " +:+ id +:+ " does not exist") in
  (is_Some (documents !! key) →
     deleteOne kind id (Some documents) = Js.Ok (delete key documents)
     ∧ (∀ other, other ≠ key → delete key documents !! other = documents !! other)
     ∧ getOne kind id (Some (delete key documents)) = Js.Throw missing
     ∧ deleteOne kind id (Some (delete key documents)) = Js.Throw missing)
  ∧ (documents !! key = None →
       deleteOne kind id (Some documents) = Js.Throw missing
       ∧ deleteCollection id (Some documents) = Js.Ok documents).
Proof.
  intros Hid missing. split.
  - intros [old Hold]. split; [|split; [|split]].
    + unfold deleteOne. cbn. rewrite Hid. cbn. by rewrite Hold.
    + intros other Hother. by apply lookup_delete_ne.
    + by rewrite (getOne_connected _ _ _ _ Hid), lookup_delete_eq.
    + unfold deleteOne. cbn. rewrite Hid. cbn. by rewrite lookup_delete_eq.
  - intros Hnone. split.
    + unfold deleteOne. cbn. rewrite Hid. cbn. by rewrite Hnone.
    + unfold deleteCollection. cbn. rewrite Hid. cbn. f_equal.
      by apply delete_id.
Qed.

(** While the static field of a collection is not set, every method
    throws ["Not connected"], before the id is looked at. *)
Lemma not_connected (kind id : string) (entity : option string * E) :
  getOne kind id (None : option (gmap string E)) = Js.Throw (newError "Not connected")
  ∧ deleteOne kind id (None : option (gmap string E)) = Js.Throw (newError "Not connected")
  ∧ deleteCollection id (None : option (gmap string E)) = Js.Throw (newError "Not connected")
  ∧ setOne entity None = Js.Throw (newError "Not connected").
Proof. done. Qed.

(** X13.  A job whose source is no longer stored fails before anything is
    extracted: the [try] block throws at [getSource], and the handler
    stores the job as [failed] with, at the end of its log, the stack (or
    the message) of the error ["Source with id ... does not exist"]. *)
Theorem job_of_missing_source (successUp : bool) (rejection : Js.thrown)
    (now : Z) (job : string * ProcessingJob) (jobs : gmap string ProcessingJob)
    (stored : ProcessingJob) (sources : gmap string E) (key : string)
    (rest : string * E → Js.result ()) :
  objectId (job_sourceId job.2) = Js.Ok key →
  sources !! key = None →
  jobs !! job.1 = Some stored →
  let message :=
    "Source with id " +:+ job_sourceId job.2 +:+ " does not exist" in
  tryBlock (Some sources) job rest = Js.Throw (newError message)
  ∧ ∃ jobs' stored',
      Processor.perJob successUp true true rejection now job
        (tryBlock (Some sources) job rest) jobs = Some jobs'
      ∧ jobs' !! job.1 = Some stored'
      ∧ job_state stored' = failed
      ∧ job_finishedAt stored' = Some now
      ∧ job_log stored'
        = job_log job.2 +:+ default message (captureStack message) +:+ Js.LF.
Proof.
  intros Hid Hnone Hstored message.
  assert (Hthrow : tryBlock (Some sources) job rest = Js.Throw (newError message)).
  { unfold tryBlock. rewrite (getOne_connected _ _ _ _ Hid), Hnone. done. }
  split; [done|]. rewrite Hthrow. cbn [Processor.perJob].
  unfold Processor.catchBlock, Processor.finishJob, Processor.log,
    Processor.updateJobLog. cbn [fst snd storeCall from_option id].
  eexists _, _. split; [done|].
  rewrite !lookup_alter_eq, Hstored. cbn. done.
Qed.

End DatabaseFacts.

(** The orphan of the crashed store, deleted and read again. *)
Lemma delete_then_missing_witness :
  @Database.deleteOne sampleIds sampleEngine _ "Job" "j1" (Some crashedStore)
  = Js.Ok (delete "j1" crashedStore)
  ∧ @Database.getOne sampleIds sampleEngine _ "Job" "j1"
      (Some (delete "j1" crashedStore))
    = Js.Throw (@newError sampleEngine "Job with id j1 does not exist").
Proof.
  destruct (@delete_then_missing sampleIds sampleEngine _ "Job" "j1" "j1"
              crashedStore eq_refl) as [Hstored _].
  destruct Hstored as (Hdelete & _ & Hget & _); [by exists orphanJob|].
  split; [exact Hdelete|exact Hget].
Defined.

(** The orphan of the crashed store with an empty collection of sources. *)
Lemma job_of_missing_source_witness :
  @Database.tryBlock sampleIds sampleEngine string (Some ∅) ("j1", orphanJob)
    (λ _, Js.Ok ())
  = Js.Throw (@newError sampleEngine "Source with id s1 does not exist").
Proof.
  exact (proj1 (@job_of_missing_source sampleIds sampleEngine string true
                  (Js.Other "{}") 900 ("j1", orphanJob) crashedStore orphanJob
                  ∅ "s1" (λ _, Js.Ok ()) eq_refl eq_refl eq_refl)).
Defined.

(** ** The document database: [$set] *)

Section SetFacts.
Context `{ObjectIds} `{Engine} {V : Type}.
Import Database.
Implicit Types documents : gmap string (gmap string V).

(** X11.  An entity set with a valid [_id] is written over the document
    of that id when the collection has one: reading the id then gives a
    document with every field of the entity, and with the stored value
    of every field that the entity does not have; no other document
    changes.  When the collection has no document of that id, the call
    returns normally all the same, the collection is unchanged, and
    reading the id still fails: the entity is not stored. *)
Theorem set_with_id (kind id key : string) (entity : gmap string V) documents :
  objectId id = Js.Ok key →
  ∃ documents',
    setOne (Some id, entity) (Some documents)
    = Js.Ok ((Some key, entity), documents')
    ∧ (∀ other, other ≠ key → documents' !! other = documents !! other)
    ∧ (∀ stored, documents !! key = Some stored →
         ∃ document,
           getOne kind id (Some documents') = Js.Ok (key, document)
           ∧ ∀ field,
               document !! field
               = match entity !! field with
                 | Some value => Some value
                 | None => stored !! field
                 end)
    ∧ (documents !! key = None →
         documents' = documents
         ∧ getOne kind id (Some documents')
           = Js.Throw (newError (kind +:+ " with id " +:+ id +:+ " does not exist"))).
Proof.
  intros Hid. eexists. split.
  { unfold setOne. cbn. rewrite Hid. cbn. done. }
  split; [intros other Hother; by apply lookup_alter_ne|]. split.
  - intros stored Hstored. exists (entity ∪ stored). split.
    + rewrite (getOne_connected _ _ _ _ Hid).
      by rewrite lookup_alter_eq, Hstored.
    + intros field. destruct (entity !! field) as [value|] eqn:Hfield.
      * by apply lookup_union_Some_l.
      * by rewrite lookup_union_r.
  - intros Hnone.
    assert (Hsame : alter (assign entity) key documents = documents).
    { apply map_eq. intros k. destruct (decide (k = key)) as [->|Hne].
      - by rewrite lookup_alter_eq, Hnone.
      - by rewrite lookup_alter_ne. }
    rewrite Hsame. split; [done|].
    by rewrite (getOne_connected _ _ _ _ Hid), Hnone.
Qed.

End SetFacts.

(** A job set with a new state and without [startedAt]: the stored
    [startedAt] is kept. *)
Lemma set_with_id_witness :
  ∃ documents' document,
    @Database.setOne sampleIds sampleEngine _ _
      (Some "65f1a2b3c4d5e6f708192a3b", {[ "state" := "stopped" ]}) (Some storedJobs)
    = Js.Ok ((Some "65f1a2b3c4d5e6f708192a3b", {[ "state" := "stopped" ]}), documents')
    ∧ @Database.getOne sampleIds sampleEngine _ "Job" "65f1a2b3c4d5e6f708192a3b" (Some documents')
      = Js.Ok ("65f1a2b3c4d5e6f708192a3b", document)
    ∧ document !! "state" = Some "stopped"
    ∧ document !! "startedAt" = Some "110".
Proof.
  destruct (@set_with_id sampleIds sampleEngine string "Job" "65f1a2b3c4d5e6f708192a3b" "65f1a2b3c4d5e6f708192a3b"
              {[ "state" := "stopped" ]} storedJobs eq_refl)
    as (documents' & Hset & _ & Hstored & _).
  destruct (Hstored {[ "sourceId" := "s1"; "state" := "running";
                       "startedAt" := "110" ]} eq_refl)
    as (document & Hget & Hfields).
  exists documents', document. split; [exact Hset|]. split; [exact Hget|].
  split.
  - exact (Hfields "state").
  - exact (Hfields "startedAt").
Defined.

(** ** The vector collection *)

Section ChromaFacts.
Import Chroma.
Implicit Types collection : gmap string VectorRecord.

Lemma deleteIds_lookup ids collection k :
  deleteIds ids collection !! k
  = if decide (k ∈ ids) then None else collection !! k.
Proof.
  revert collection. induction ids as [|i rest IH]; intros collection.
  - cbn. by rewrite decide_False by apply not_elem_of_nil.
  - cbn [deleteIds]. rewrite IH.
    destruct (decide (k ∈ rest)) as [Hin|Hnin].
    + by rewrite decide_True by (by apply list_elem_of_further).
    + destruct (decide (k = i)) as [->|Hne].
      * rewrite decide_True by apply list_elem_of_here. apply lookup_delete_eq.
      * rewrite decide_False by (rewrite elem_of_cons; tauto).
        by apply lookup_delete_ne.
Qed.

Lemma getIds_nil sourceId collection k record :
  getIds sourceId 500 0 collection = [] →
  collection !! k = Some record →
  Pipeline.sourceId (vec_metadata record) ≠ sourceId.
Proof.
  unfold getIds. rewrite drop_0. intros Hnil Hk HP.
  assert (Hin : (k, record) ∈ map_to_list
            (filter (λ kv, Pipeline.sourceId (vec_metadata kv.2) = sourceId)
               collection)).
  { apply elem_of_map_to_list, map_lookup_filter_Some. done. }
  destruct (map_to_list _) as [|kv l]; [by apply elem_of_nil in Hin|done].
Qed.

Lemma deleteSourceDocs_lookup sourceId collection k :
  deleteSourceDocs sourceId collection !! k
  = match collection !! k with
    | Some record =>
        if decide (Pipeline.sourceId (vec_metadata record) = sourceId)
        then None else Some record
    | None => None
    end.
Proof.
  funelim (deleteSourceDocs sourceId collection).
  - destruct (collection !! k) as [record|] eqn:Hk; [|done].
    rewrite decide_False; [done|]. by eapply getIds_nil.
  - match goal with IH : ∀ k, _ |- _ => rewrite IH end.
    rewrite deleteIds_lookup.
    destruct (decide (k ∈ id :: ids)) as [Hin|Hnin]; [|done].
    destruct (getIds_stored sourceId 500 0 collection k) as (record & -> & HP);
      [by rewrite Hget|].
    by rewrite decide_True.
Qed.

(** X14.  [deleteSourceDocs] ends, and when it returns the collection
    holds no record of the source and every record of the other sources,
    unchanged. *)
Theorem deleteSourceDocs_removes_source (sourceId : string) collection :
  (∀ k record,
     deleteSourceDocs sourceId collection !! k = Some record ↔
     collection !! k = Some record
     ∧ Pipeline.sourceId (vec_metadata record) ≠ sourceId)
  ∧ getIds sourceId 500 0 (deleteSourceDocs sourceId collection) = [].
Proof.
  assert (Hlookup : ∀ k record,
     deleteSourceDocs sourceId collection !! k = Some record ↔
     collection !! k = Some record
     ∧ Pipeline.sourceId (vec_metadata record) ≠ sourceId).
  { intros k record. rewrite deleteSourceDocs_lookup.
    destruct (collection !! k) as [r|]; [|split; [done|by intros [? _]]].
    case_decide as HP.
    - split; [done|]. intros [[= ->] Hne]. done.
    - split; [by intros [= <-]|]. by intros [? _]. }
  split; [done|].
  destruct (getIds sourceId 500 0 (deleteSourceDocs sourceId collection))
    as [|k ids] eqn:Hget; [done|].
  destruct (getIds_stored sourceId 500 0
              (deleteSourceDocs sourceId collection) k) as (record & Hk & HP).
  { rewrite Hget. apply list_elem_of_here. }
  apply Hlookup in Hk as [_ Hne]. done.
Qed.

End ChromaFacts.

(** ** Vector ids are keys *)

Section IdFacts.
Import Pipeline.

Lemma splitLastBar_None s : hasBar s = false → splitLastBar s = None.
Proof.
  induction s as [|a s IH]; [done|]. cbn.
  destruct (Ascii.eqb a "|"); [done|]. intros Hs. by rewrite IH.
Qed.

Lemma splitLastBar_key uri suffix :
  hasBar suffix = false →
  splitLastBar (uri +:+ "|" +:+ suffix) = Some (uri, suffix).
Proof.
  intros Hs. induction uri as [|a uri IH].
  - change ("" +:+ "|" +:+ suffix) with (String "|"%char suffix).
    cbn [splitLastBar]. by rewrite splitLastBar_None.
  - change (String a uri +:+ "|" +:+ suffix)
      with (String a (uri +:+ "|" +:+ suffix)).
    cbn [splitLastBar]. by rewrite IH.
Qed.

Lemma pretty_N_char_no_bar d : Ascii.eqb (pretty_N_char d) "|" = false.
Proof. unfold pretty_N_char. by repeat case_match. Qed.

Lemma pretty_N_go_no_bar x s :
  hasBar s = false → hasBar (pretty_N_go x s) = false.
Proof.
  revert s. induction (N.lt_wf_0 x) as [x _ IH]; intros s Hs.
  destruct (decide (x = 0)%N) as [->|Hx]; [by rewrite pretty_N_go_0|].
  rewrite pretty_N_go_step by lia. apply IH.
  - apply N.div_lt; lia.
  - cbn. by rewrite pretty_N_char_no_bar.
Qed.

Lemma pretty_nat_no_bar (n : nat) : hasBar (pretty n) = false.
Proof.
  unfold pretty, pretty_nat, pretty, pretty_N.
  case_decide; [done|]. by apply pretty_N_go_no_bar.
Qed.

(** An id determines the uri and the index it was made of. *)
Lemma id_inj uri1 uri2 (j1 j2 : nat) :
  uri1 +:+ "|" +:+ pretty j1 = uri2 +:+ "|" +:+ pretty j2 →
  uri1 = uri2 ∧ j1 = j2.
Proof.
  intros Heq.
  pose proof (splitLastBar_key uri1 (pretty j1) (pretty_nat_no_bar j1)) as H1.
  pose proof (splitLastBar_key uri2 (pretty j2) (pretty_nat_no_bar j2)) as H2.
  rewrite Heq, H2 in H1. injection H1 as -> Hj. split; [done|].
  by apply (inj pretty).
Qed.

Lemma ids_NoDup (docs : list EmbedderDocument) :
  NoDup (doc_uri <$> docs) → NoDup (ids docs).
Proof.
  intros Huris. unfold ids. apply NoDup_bind.
  - intros d1 d2 y Hd1 Hd2 Hy1 Hy2.
    apply list_elem_of_lookup in Hy1 as [j1 Hj1], Hy2 as [j2 Hj2].
    rewrite list_lookup_imap in Hj1, Hj2.
    destruct (doc_segments d1 !! j1); [|done].
    destruct (doc_segments d2 !! j2); [|done].
    cbn in Hj1, Hj2. injection Hj1 as <-. injection Hj2 as Heq.
    apply id_inj in Heq as [Huri _].
    apply list_elem_of_lookup in Hd1 as [k1 Hk1], Hd2 as [k2 Hk2].
    assert (k1 = k2); [|congruence].
    eapply NoDup_lookup; [exact Huris| |]; rewrite list_lookup_fmap.
    + by rewrite Hk1.
    + by rewrite Hk2, <- Huri.
  - intros d _. apply NoDup_alt. intros j1 j2 y.
    rewrite !list_lookup_imap.
    destruct (doc_segments d !! j1); [|done].
    destruct (doc_segments d !! j2); [|done].
    cbn. intros [= <-] [= Heq]. by apply id_inj in Heq as [_ ->].
  - by eapply NoDup_fmap_1.
Qed.

(** X15.  An id [uri + "|" + index] determines the uri and the index it
    was made of, whatever characters the uri contains; so, when the
    documents have pairwise distinct uris, the ids of their segments are
    pairwise distinct. *)
Theorem ids_are_keys (docs : list EmbedderDocument) :
  (∀ uri1 uri2 (j1 j2 : nat),
     uri1 +:+ "|" +:+ pretty j1 = uri2 +:+ "|" +:+ pretty j2 →
     uri1 = uri2 ∧ j1 = j2)
  ∧ (NoDup (doc_uri <$> docs) → NoDup (ids docs)).
Proof. split; [apply id_inj|apply ids_NoDup]. Qed.

End IdFacts.

(** ** Replacing the vectors of a source *)

Section ReplaceFacts.
Import Pipeline Chroma.
Implicit Types collection : gmap string VectorRecord.

Lemma foldl_applyEvent collection (trace : list event) :
  foldl applyEvent collection trace = foldl writeRecord collection (written trace).
Proof.
  revert collection. induction trace as [|e trace IH]; intros collection; [done|].
  unfold written. rewrite bind_cons, foldl_app. cbn [foldl]. rewrite IH.
  by destruct e.
Qed.

Lemma foldl_writeRecord_other collection l k :
  k ∉ (λ r, r.1.1.1) <$> l →
  foldl writeRecord collection l !! k = collection !! k.
Proof.
  revert collection. induction l as [|r l IH]; intros collection Hk; [done|].
  cbn [foldl]. rewrite fmap_cons, not_elem_of_cons in Hk. destruct Hk as [Hne Hk].
  rewrite IH by done. unfold writeRecord. by rewrite lookup_insert_ne.
Qed.

Lemma foldl_writeRecord_written collection l r :
  NoDup ((λ r, r.1.1.1) <$> l) →
  r ∈ l →
  foldl writeRecord collection l !! r.1.1.1 = Some (mkRecord r.1.1.2 r.1.2 r.2).
Proof.
  revert collection. induction l as [|r0 l IH]; intros collection Hnd Hr;
    [by apply elem_of_nil in Hr|].
  rewrite fmap_cons in Hnd. apply NoDup_cons in Hnd as [Hfresh Hnd].
  cbn [foldl]. apply elem_of_cons in Hr as [->|Hr].
  - rewrite foldl_writeRecord_other by done.
    unfold writeRecord. by rewrite lookup_insert_eq.
  - by apply IH.
Qed.

Lemma records_keys ids embeddings metadatas vectorDocs :
  length embeddings = length ids →
  length metadatas = length ids →
  length vectorDocs = length ids →
  (λ r, r.1.1.1) <$> records ids embeddings metadatas vectorDocs = ids.
Proof.
  unfold records. revert embeddings metadatas vectorDocs.
  induction ids as [|k ids IH]; intros [|e es] [|m ms] [|d ds] He Hm Hv;
    try done.
  cbn. f_equal. apply IH; cbn in *; lia.
Qed.

Lemma records_elem ids embeddings metadatas vectorDocs r :
  r ∈ records ids embeddings metadatas vectorDocs ↔
  ∃ i, ids !! i = Some r.1.1.1 ∧ embeddings !! i = Some r.1.1.2
       ∧ metadatas !! i = Some r.1.2 ∧ vectorDocs !! i = Some r.2.
Proof.
  unfold records, zip. rewrite list_elem_of_lookup. split.
  - intros [i Hi]. exists i.
    apply lookup_zip_with_Some in Hi as (x3 & d & -> & Hi & Hd).
    apply lookup_zip_with_Some in Hi as (x2 & m & -> & Hi & Hm).
    apply lookup_zip_with_Some in Hi as (k & e & -> & Hk & He).
    done.
  - intros (i & Hk & He & Hm & Hd). exists i.
    destruct r as [[[k e] m] d]. cbn in *.
    apply lookup_zip_with_Some. eexists _, _. split; [done|]. split; [|done].
    apply lookup_zip_with_Some. eexists _, _. split; [done|]. split; [|done].
    apply lookup_zip_with_Some. eexists _, _. done.
Qed.

Lemma replaceVectors_lookup (source_id : string) (docs : list EmbedderDocument)
    collection (k : string) (record : VectorRecord) :
  NoDup (doc_uri <$> docs) →
  (replaceVectors source_id docs collection !! k = Some record ↔
   (∃ i e m d,
      ids docs !! i = Some k
      ∧ embeddings docs !! i = Some e
      ∧ metadatas source_id docs !! i = Some m
      ∧ vectorDocs docs !! i = Some d
      ∧ record = mkRecord e m d)
   ∨ ((k ∉ ids docs)
      ∧ collection !! k = Some record
      ∧ sourceId (vec_metadata record) ≠ source_id)).
Proof.
  intros Huris. unfold replaceVectors, write.
  rewrite foldl_applyEvent, written_loop.
  set (l := records _ _ _ _).
  assert (Hkeys : (λ r, r.1.1.1) <$> l = ids docs).
  { apply records_keys.
    - by rewrite embeddings_length, ids_length.
    - by rewrite (metadatas_length source_id), ids_length.
    - by rewrite vectorDocs_length, ids_length. }
  assert (Hnd : NoDup ((λ r, r.1.1.1) <$> l))
    by (rewrite Hkeys; by apply ids_NoDup).
  destruct (decide (k ∈ ids docs)) as [Hin|Hnin].
  - rewrite <- Hkeys in Hin.
    apply list_elem_of_fmap in Hin as (r & -> & Hr).
    rewrite (foldl_writeRecord_written _ _ _ Hnd Hr).
    apply records_elem in Hr as Hr'. destruct Hr' as (i & Hk & He & Hm & Hd).
    split.
    + intros [= <-]. left. by exists i, r.1.1.2, r.1.2, r.2.
    + intros [(i' & e & m & d & Hk' & He' & Hm' & Hd' & ->)|[Hnin _]].
      * assert (i' = i) as ->.
        { eapply NoDup_lookup; [|exact Hk'|exact Hk]. by rewrite <- Hkeys. }
        congruence.
      * exfalso. apply Hnin. by eapply list_elem_of_lookup_2.
  - rewrite foldl_writeRecord_other by (by rewrite Hkeys).
    rewrite deleteSourceDocs_lookup. split.
    + destruct (collection !! k) as [r|]; [|done].
      case_decide; [done|]. intros [= <-]. right. done.
    + intros [(i & e & m & d & Hk & _)|(_ & -> & Hne)].
      * exfalso. apply Hnin. by eapply list_elem_of_lookup_2.
      * by rewrite decide_False.
Qed.

(** X16.  With pairwise distinct document uris, the collection after
    the deletion and the batched upserts holds, under each new id, the
    embedding, metadata and text that stand at the position of that id
    in the arrays, and besides them only the records of other sources
    that were there, unchanged: a record of an earlier run of the source
    whose id is not written again is gone. *)
Theorem replaceVectors_spec (source_id : string) (docs : list EmbedderDocument)
    collection :
  NoDup (doc_uri <$> docs) →
  (∀ k record,
     replaceVectors source_id docs collection !! k = Some record ↔
     (∃ i e m d,
        ids docs !! i = Some k
        ∧ embeddings docs !! i = Some e
        ∧ metadatas source_id docs !! i = Some m
        ∧ vectorDocs docs !! i = Some d
        ∧ record = mkRecord e m d)
     ∨ ((k ∉ ids docs)
        ∧ collection !! k = Some record
        ∧ sourceId (vec_metadata record) ≠ source_id))
  ∧ ∀ k record,
      collection !! k = Some record →
      sourceId (vec_metadata record) = source_id →
      k ∉ ids docs →
      replaceVectors source_id docs collection !! k = None.
Proof.
  intros Huris. split.
  - intros k record. by apply replaceVectors_lookup.
  - intros k record Hold Hsrc Hnew.
    destruct (replaceVectors source_id docs collection !! k) as [r|] eqn:Hk;
      [|done].
    destruct (proj1 (replaceVectors_lookup _ _ _ _ _ Huris) Hk)
      as [(i & e & m & d & Hi & _)|(_ & Hr & Hne)].
    + exfalso. apply Hnew. by eapply list_elem_of_lookup_2.
    + congruence.
Qed.

End ReplaceFacts.

(** The two sample documents written over a collection that holds a
    record of an earlier run of [s1] and a record of [s2]: the segment
    of the second document is stored under its id, and the record of
    the earlier run is gone. *)
Lemma replaceVectors_spec_witness :
  Chroma.replaceVectors "s1" smallDocs oldVectors !! "https://site/b|0"
  = Some (mkRecord [3%float] (Pipeline.mkMetadata "s1" "https://site/b" "B" 0 1) "b0")
  ∧ Chroma.replaceVectors "s1" smallDocs oldVectors !! "https://site/old|0" = None.
Proof.
  destruct (replaceVectors_spec "s1" smallDocs oldVectors) as [Hnew Hold].
  { apply (bool_decide_unpack _). vm_compute. exact I. }
  split.
  - apply Hnew. left.
    exists 2, [3%float], (Pipeline.mkMetadata "s1" "https://site/b" "B" 0 1), "b0".
    repeat split; reflexivity.
  - apply (Hold _ (mkRecord [9%float]
                     (Pipeline.mkMetadata "s1" "https://site/old" "Old" 0 1) "old"));
      [reflexivity|reflexivity|].
    apply (bool_decide_unpack _). vm_compute. exact I.
Defined.

(** ** More on strings *)

Lemma app_empty_r (s : string) : s +:+ "" = s.
Proof.
  induction s as [|a s IH]; [done|].
  change (String a (s +:+ "") = String a s). by rewrite IH.
Qed.

Lemma rev_app_app (s t u : string) :
  String.rev_app s (t +:+ u) = String.rev_app s t +:+ u.
Proof.
  revert t. induction s as [|a s IH]; intros t; [done|].
  cbn [String.rev_app]. by rewrite <- IH.
Qed.

Lemma rev_cons (a : ascii) (s : string) :
  String.rev (String a s) = String.rev s +:+ String a "".
Proof. unfold String.rev. cbn [String.rev_app]. by rewrite <- rev_app_app. Qed.

Lemma rev_app (s t : string) :
  String.rev (s +:+ t) = String.rev t +:+ String.rev s.
Proof.
  induction s as [|a s IH].
  - change ("" +:+ t) with t. by rewrite app_empty_r.
  - change (String a s +:+ t) with (String a (s +:+ t)).
    by rewrite !rev_cons, IH, app_assoc_string.
Qed.

Lemma rev_involutive (s : string) : String.rev (String.rev s) = s.
Proof.
  induction s as [|a s IH]; [done|].
  by rewrite rev_cons, rev_app, IH.
Qed.

Lemma prefix_app (p s : string) : String.prefix p (p +:+ s) = true.
Proof.
  induction p as [|a p IH]; [by destruct s|].
  change (String a p +:+ s) with (String a (p +:+ s)).
  cbn [String.prefix]. by destruct (ascii_dec a a).
Qed.

Lemma endsWith_app (suffix s : string) : Js.endsWith suffix (s +:+ suffix) = true.
Proof. unfold Js.endsWith. rewrite rev_app. apply prefix_app. Qed.

Lemma occurs_app (c : ascii) (s t : string) :
  occurs c (s +:+ t) = occurs c s || occurs c t.
Proof.
  induction s as [|a s IH]; [done|].
  change (String a s +:+ t) with (String a (s +:+ t)).
  cbn [occurs]. by rewrite IH, orb_assoc.
Qed.

Lemma split_no_sep (sep : ascii) (s : string) :
  occurs sep s = false → Js.split sep s = [s].
Proof.
  induction s as [|a s IH]; [done|]. cbn [occurs Js.split].
  intros [Ha Hs]%orb_false_iff. rewrite Ha, IH; done.
Qed.

Lemma split_app_sep (sep : ascii) (s rest : string) :
  occurs sep s = false →
  Js.split sep (s +:+ String sep rest) = s :: Js.split sep rest.
Proof.
  induction s as [|a s IH].
  - intros _. change ("" +:+ String sep rest) with (String sep rest).
    cbn [Js.split]. by rewrite Ascii.eqb_refl.
  - cbn [occurs]. intros [Ha Hs]%orb_false_iff.
    change (String a s +:+ String sep rest)
      with (String a (s +:+ String sep rest)).
    cbn [Js.split]. by rewrite Ha, IH.
Qed.

(** Splitting the text made of lines gives the lines back. *)
Lemma split_of_lines (ls : list string) :
  ls ≠ [] →
  Forall (λ l, occurs "010" l = false) ls →
  Js.split "010" (lines ls) = ls.
Proof.
  intros Hne Hall. induction Hall as [|l ls Hl Hall IH]; [done|].
  destruct ls as [|l' ls].
  - cbn. by apply split_no_sep.
  - change (lines (l :: l' :: ls)) with (l +:+ String "010" (lines (l' :: ls))).
    rewrite split_app_sep by done. by rewrite IH.
Qed.

(** Joining the lines of a text gives the text back. *)
Lemma fold_lines (s buffer : string) :
  fold_left (λ b line, b +:+ line +:+ Js.LF) (Js.split "010" s) buffer
  = buffer +:+ s +:+ Js.LF.
Proof.
  revert buffer. induction s as [|a s IH]; intros buffer; [done|].
  cbn [Js.split]. destruct (Ascii.eqb_spec a "010") as [->|Hne].
  - cbn [fold_left]. rewrite IH. change ("" +:+ Js.LF) with Js.LF.
    rewrite app_assoc_string. done.
  - specialize (IH (buffer +:+ String a "")).
    destruct (Js.split "010" s) as [|h t] eqn:Hsplit.
    + by destruct s; cbn in Hsplit; repeat case_match.
    + cbn [fold_left] in *. rewrite !app_assoc_string in IH. exact IH.
Qed.

Lemma removeCR_id (s : string) : occurs "013" s = false → removeCR s = s.
Proof.
  induction s as [|a s IH]; [done|]. cbn [occurs removeCR].
  intros [Ha Hs]%orb_false_iff. rewrite Ha, IH; done.
Qed.

Lemma occurs_lines (c : ascii) (ls : list string) :
  c ≠ "010"%char →
  Forall (λ l, occurs c l = false) ls →
  occurs c (lines ls) = false.
Proof.
  intros Hc Hall. induction Hall as [|l ls Hl Hall IH]; [done|].
  destruct ls as [|l' ls]; [done|].
  change (lines (l :: l' :: ls)) with (l +:+ String "010" (lines (l' :: ls))).
  rewrite occurs_app, Hl. cbn [occurs orb]. rewrite IH, orb_false_r.
  by apply Ascii.eqb_neq.
Qed.

Lemma trimStart_graphic (a : ascii) (s : string) :
  Js.isWhiteSpace a = false → Js.trimStart (String a s) = String a s.
Proof. intros Ha. cbn [Js.trimStart]. by rewrite Ha. Qed.

(** A string between two characters that are not white space is its own
    trim. *)
Lemma trim_bracketed (a b : ascii) (s : string) :
  Js.isWhiteSpace a = false → Js.isWhiteSpace b = false →
  Js.trim (String a (s +:+ String b "")) = String a (s +:+ String b "").
Proof.
  intros Ha Hb. unfold Js.trim, Js.trimEnd. rewrite trimStart_graphic by done.
  rewrite rev_cons, rev_app.
  change (String.rev (String b "")) with (String b "").
  change ((String b "" +:+ String.rev s) +:+ String a "")
    with (String b (String.rev s +:+ String a "")).
  rewrite trimStart_graphic by done.
  change (String b (String.rev s +:+ String a ""))
    with (String b "" +:+ (String.rev s +:+ String a "")).
  rewrite rev_app, rev_app, rev_involutive. done.
Qed.

Lemma replace_head (c : ascii) (s : string) :
  Js.replace (String c "") "" (String c s) = s.
Proof.
  cbn [Js.replace String.prefix]. destruct (ascii_dec c c); [|done].
  by destruct s.
Qed.

Lemma replace_last (c : ascii) (s : string) :
  occurs c s = false →
  Js.replace (String c "") "" (s +:+ String c "") = s.
Proof.
  induction s as [|a s IH]; intros Hs.
  - change ("" +:+ String c "") with (String c ""). apply replace_head.
  - cbn [occurs] in Hs. apply orb_false_iff in Hs as [Ha Hs].
    change (String a s +:+ String c "") with (String a (s +:+ String c "")).
    cbn [Js.replace String.prefix].
    destruct (ascii_dec c a) as [->|Hne]; [by rewrite Ascii.eqb_refl in Ha|].
    by rewrite IH.
Qed.

(** ** Markdown archives: reading the files *)

Section ArchiveFacts.
Context `{Engine} `{Runtime}.
Import MarkdownArchive.

(** X17.  A file written in the header convention is read back: the
    first line gives the uri, the third line, between its brackets, the
    title, the fourth line is the marker, and the text is made of the
    lines that follow the marker; the second line is ignored. *)
Theorem parseFile_header_convention (relativePath url second bracketed marker : string)
    (body : list string) :
  Forall (λ l, occurs "010" l = false ∧ occurs "013" l = false)
    (url :: second :: bracketed :: marker :: body) →
  occurs "]" bracketed = false →
  String.prefix "[[" marker = true →
  Js.endsWith "]]" (Js.trim marker) = true →
  parseFile relativePath
    (lines (url :: second :: ("[" +:+ bracketed +:+ "]") :: marker :: body))
  = Js.Ok {| doc_uri := Js.trim url;
             doc_title := bracketed;
             doc_text := Js.trim (lines body);
             doc_segments := [] |}.
Proof.
  intros Hall Hbr Hpre Hend.
  set (ls := url :: second :: ("[" +:+ bracketed +:+ "]") :: marker :: body).
  assert (Hall' : Forall (λ l, occurs "010" l = false ∧ occurs "013" l = false) ls).
  { unfold ls. inversion Hall as [|? ? Hu Hall1]; subst.
    inversion Hall1 as [|? ? Hs Hall2]; subst.
    inversion Hall2 as [|? ? [Hb1 Hb2] Hall3]; subst.
    repeat (constructor; [done|]). constructor; [|done].
    rewrite !occurs_app, Hb1, Hb2. done. }
  unfold parseFile.
  rewrite removeCR_id.
  2:{ apply occurs_lines; [done|]. eapply Forall_impl; [exact Hall'|].
      by intros l [_ ?]. }
  rewrite split_of_lines.
  2:{ done. }
  2:{ eapply Forall_impl; [exact Hall'|]. by intros l [? _]. }
  unfold ls. cbn [lookup list_lookup from_option drop]. rewrite Hpre, Hend.
  cbn [andb]. do 2 f_equal.
  change ("[" +:+ bracketed +:+ "]")
    with (String "["%char (bracketed +:+ String "]"%char "")).
  rewrite trim_bracketed by done.
  rewrite (replace_head "["%char). by apply (replace_last "]"%char).
Qed.

Lemma documents_selected (files : list (string * string)) :
  documents files = Js.forEach (λ file, parseFile file.1 file.2) (selected files).
Proof.
  induction files as [|[relativePath content] rest IH]; [done|].
  cbn [documents]. unfold selected in *.
  destruct (includes "__MACOSX/" relativePath) eqn:Hmac.
  - rewrite filter_cons_False by (cbn [fst]; rewrite Hmac; by intros [? _]). done.
  - destruct (Js.endsWith ".md" relativePath) eqn:Hmd.
    + rewrite filter_cons_True by (cbn [fst]; by rewrite Hmac, Hmd).
      cbn [Js.forEach fst snd]. by rewrite IH.
    + rewrite filter_cons_False by (cbn [fst]; rewrite Hmd; by intros [_ ?]). done.
Qed.

Lemma forEach_Ok_inv {A B} (f : A → Js.result B) (xs : list A) (ys : list B) :
  Js.forEach f xs = Js.Ok ys →
  length ys = length xs
  ∧ ∀ i x, xs !! i = Some x → ∃ y, ys !! i = Some y ∧ f x = Js.Ok y.
Proof.
  revert ys. induction xs as [|x xs IH]; intros ys.
  - intros [= <-]. split; [done|]. intros i x Hi. done.
  - cbn [Js.forEach]. destruct (f x) as [y|e] eqn:Hx; [|done]. cbn.
    destruct (Js.forEach f xs) as [ys'|e] eqn:Hxs; [|done]. cbn.
    intros [= <-]. destruct (IH ys' eq_refl) as [Hlen Hat].
    split; [cbn; by rewrite Hlen|].
    intros [|i] x' Hi; cbn in Hi.
    + injection Hi as <-. by exists y.
    + by apply Hat.
Qed.

(** X18.  The entries under [__MACOSX/] and the entries whose name does
    not end in [.md] are not read.  When the archive is read, it gives
    one document per other entry, in order; when one of those entries
    cannot be parsed, reading the archive throws and no document is
    returned. *)
Theorem archive_all_or_nothing (files : list (string * string)) :
  (∀ docs, documents files = Js.Ok docs →
     length docs = length (selected files)
     ∧ ∀ i file, selected files !! i = Some file →
         ∃ doc, docs !! i = Some doc ∧ parseFile file.1 file.2 = Js.Ok doc)
  ∧ (∀ file e, file ∈ selected files → parseFile file.1 file.2 = Js.Throw e →
       ∃ e', documents files = Js.Throw e')
  ∧ (∀ file, file ∈ selected files ↔
       file ∈ files ∧ includes "__MACOSX/" file.1 = false
       ∧ Js.endsWith ".md" file.1 = true).
Proof.
  rewrite documents_selected. split; [|split].
  - intros docs Hdocs. by apply forEach_Ok_inv.
  - intros file e Hin Hthrow.
    destruct (forEach_Throw (λ file, parseFile file.1 file.2) _ _ _ Hin Hthrow)
      as (file' & e' & _ & _ & Hrun).
    by exists e'.
  - intros file. unfold selected. rewrite list_elem_of_filter. tauto.
Qed.

End ArchiveFacts.

(** The sample file of an archive. *)
Lemma parseFile_header_convention_witness :
  @MarkdownArchive.parseFile sampleEngine sampleRuntime "docs/spine-slots.md" slotsFile
  = Js.Ok (mkDocument "http://esotericsoftware.com/spine-slots" "Slots"
             "Slots hold attachments." []).
Proof.
  apply (@parseFile_header_convention sampleEngine sampleRuntime
           "docs/spine-slots.md" "http://esotericsoftware.com/spine-slots" ""
           "Slots" "[[header]]" ["Slots hold attachments."; ""]).
  - repeat (constructor; [split; reflexivity|]). constructor.
  - reflexivity.
  - reflexivity.
  - reflexivity.
Defined.

(** ** The heading-aware split of a text without headings *)

Section PlainTextFacts.
Context `{Tokenizer} `{TextSplitter}.
Import MarkdownZip.

Lemma fold_step_plain doc (ls : list string) (st : state) :
  Forall (λ line, countHashAtBeginning (Js.trim line) = 0) ls →
  fold_left (step doc) ls st
  = mkState (title st)
      (fold_left (λ b line, b +:+ line +:+ Js.LF) ls (currText st))
      (segments st).
Proof.
  intros Hall. revert st. induction Hall as [|line ls Hline Hall IH]; intros st.
  - by destruct st.
  - cbn [fold_left]. rewrite IH, step_body by done. done.
Qed.

(** X19.  A text in which no line is a heading and whose buffer, the
    text and a newline, is within the ceiling, gives exactly one more
    segment: the trimmed text, without the title of the document in
    front.  The empty text gives a segment with the empty text. *)
Theorem hook_without_heading (doc : EmbedderDocument) :
  Forall (λ line, countHashAtBeginning (Js.trim line) = 0)
    (Js.split "010" (doc_text doc)) →
  length (tokenize (doc_text doc +:+ Js.LF)) ≤ 500 →
  hook doc
  = doc_segments doc
      ++ [mkSegment (Js.trim (doc_text doc +:+ Js.LF))
            (length (tokenize (doc_text doc +:+ Js.LF))) []].
Proof.
  intros Hplain Hsmall. unfold hook, run.
  rewrite fold_step_plain by done. cbn [title currText segments].
  rewrite fold_lines. change ("" +:+ doc_text doc +:+ Js.LF)
    with (doc_text doc +:+ Js.LF).
  apply flush_small; [|done]. by apply nonempty_app_r.
Qed.

End PlainTextFacts.

(** Two lines without heading: one segment, without the title. *)
Lemma hook_without_heading_witness :
  @MarkdownZip.hook wordTokenizer lineSplitter plainDocument
  = [mkSegment (lines ["plain text"; "more"]) 3 []].
Proof.
  apply (@hook_without_heading wordTokenizer lineSplitter plainDocument).
  - repeat (constructor; [reflexivity|]). constructor.
  - vm_compute. lia.
Defined.

(** ** [cleanUpText] *)

Section CleanFacts.
Import Clean Shape.

Lemma replaceAll_match m rep a s' len :
  m (a :: s') = Some len →
  replaceAll m rep (a :: s')
  = rep ++ replaceAll m rep (drop (pred len) s').
Proof. intros Hm. simp replaceAll. rewrite Hm. done. Qed.

Lemma replaceAll_nomatch m rep a s' :
  m (a :: s') = None →
  replaceAll m rep (a :: s') = a :: replaceAll m rep s'.
Proof. intros Hm. simp replaceAll. rewrite Hm. done. Qed.

(** Induction along the scan of [replaceAll]. *)
Lemma replaceAll_scan (P : list N → list N → Prop) m rep :
  P [] [] →
  (∀ a s' len, m (a :: s') = Some len →
     P (drop (pred len) s') (replaceAll m rep (drop (pred len) s')) →
     P (a :: s') (rep ++ replaceAll m rep (drop (pred len) s'))) →
  (∀ a s', m (a :: s') = None →
     P s' (replaceAll m rep s') →
     P (a :: s') (a :: replaceAll m rep s')) →
  ∀ s, P s (replaceAll m rep s).
Proof.
  intros Hnil Hmatch Hnomatch s.
  remember (length s) as n eqn:Hn. revert s Hn.
  induction (lt_wf n) as [n _ IH]. intros s ->.
  destruct s as [|a s']; [by simp replaceAll|].
  destruct (m (a :: s')) as [len|] eqn:Hm.
  - rewrite (replaceAll_match _ _ _ _ _ Hm). apply Hmatch; [done|].
    eapply IH; [|done]. cbn. rewrite length_drop. lia.
  - rewrite (replaceAll_nomatch _ _ _ _ Hm). apply Hnomatch; [done|].
    eapply IH; [|done]. cbn. lia.
Qed.

(** *** Heads, characters, pairs *)

Lemma headIs_true (p : N → bool) (s : list N) :
  (∀ a, p a = true) → headIs p s = true.
Proof. intros Hp. destruct s; [done|apply Hp]. Qed.

Lemma headIs_impl (p q : N → bool) (s : list N) :
  (∀ a, p a = true → q a = true) → headIs p s = true → headIs q s = true.
Proof. intros Hpq. destruct s; [done|apply Hpq]. Qed.

Lemma headIs_app (p : N → bool) (u v : list N) :
  headIs p (u ++ v) = true → u ≠ [] → headIs p u = true.
Proof. by destruct u. Qed.

Lemma allChars_app (p : N → bool) (u v : list N) :
  allChars p (u ++ v) = allChars p u && allChars p v.
Proof.
  induction u as [|a u IH]; [done|].
  cbn [app].
  cbn [allChars]. by rewrite IH, andb_assoc.
Qed.

Lemma allChars_drop (p : N → bool) (n : nat) (s : list N) :
  allChars p s = true → allChars p (drop n s) = true.
Proof.
  revert s. induction n as [|n IH]; intros s Hs; [done|].
  destruct s as [|a s]; [done|]. cbn in Hs |- *.
  apply andb_true_iff in Hs as [_ Hs]. by apply IH.
Qed.

Lemma pairsOk_tail ok (a : N) (s : list N) :
  pairsOk ok (a :: s) = true → pairsOk ok s = true.
Proof. cbn. by intros [_ ?]%andb_true_iff. Qed.

Lemma pairsOk_head ok (a : N) (s : list N) :
  pairsOk ok (a :: s) = true → headIs (ok a) s = true.
Proof. cbn. by intros [? _]%andb_true_iff. Qed.

Lemma pairsOk_app_r ok (u v : list N) :
  pairsOk ok (u ++ v) = true → pairsOk ok v = true.
Proof.
  induction u as [|a u IH]; [done|].
  cbn [app].
  intros Hp%pairsOk_tail. by apply IH.
Qed.

Lemma pairsOk_app_l ok (u v : list N) :
  pairsOk ok (u ++ v) = true → pairsOk ok u = true.
Proof.
  induction u as [|a u IH]; [done|].
  cbn [app].
  cbn [pairsOk]. intros [Hh Hp]%andb_true_iff. rewrite IH by done.
  rewrite andb_true_r. destruct u; [done|exact Hh].
Qed.

Lemma drop_tail (P : list N → Prop) (n : nat) (s : list N) :
  (∀ a s', P (a :: s') → P s') → P s → P (drop n s).
Proof.
  intros Htail. revert s. induction n as [|n IH]; intros s Hs; [done|].
  destruct s as [|a s]; [done|]. cbn. apply IH. by eapply Htail.
Qed.

(** *** What [replaceAll] keeps *)

Lemma replaceAll_head (p : N → bool) m (r0 : N) (rep' s : list N) :
  p r0 = true →
  headIs p s = true →
  headIs p (replaceAll m (r0 :: rep') s) = true.
Proof.
  intros Hr Hs. destruct s as [|a s']; [by simp replaceAll|].
  destruct (m (a :: s')) as [len|] eqn:Hm.
  - by rewrite (replaceAll_match _ _ _ _ _ Hm).
  - by rewrite (replaceAll_nomatch _ _ _ _ Hm).
Qed.

Lemma replaceAll_allChars (p : N → bool) m (rep s : list N) :
  allChars p rep = true →
  allChars p s = true →
  allChars p (replaceAll m rep s) = true.
Proof.
  intros Hrep. revert s.
  apply (replaceAll_scan (λ s out, allChars p s = true → allChars p out = true)).
  - done.
  - intros a s' len Hm IH Hs. rewrite allChars_app, Hrep. cbn.
    apply IH. apply allChars_drop. cbn in Hs. by apply andb_true_iff in Hs as [_ ?].
  - intros a s' Hm IH Hs. cbn in Hs |- *.
    apply andb_true_iff in Hs as [-> Hs]. by apply IH.
Qed.

(** The pairs of the result are fine when: a character that is left in
    place may be followed by what followed it ([Hnomatch]); the last
    character [rl] of the replacement may be followed by what follows a
    match ([Hmatch]); and the first character [r0] of the replacement may
    follow anything ([Hr0]). *)
Lemma replaceAll_pairsOk ok m (r0 rl : N) (rep' : list N)
    (Q : list N → Prop) :
  (∀ a s', Q (a :: s') → Q s') →
  (∀ a s', Q (a :: s') → m (a :: s') = None →
     headIs (ok a) s' = true) →
  (∀ a s' len, Q (a :: s') → m (a :: s') = Some len →
     headIs (ok rl) (drop (pred len) s') = true) →
  (∀ x, ok x r0 = true) →
  (∀ X, pairsOk ok X = true → headIs (ok rl) X = true →
     pairsOk ok ((r0 :: rep') ++ X) = true) →
  ∀ s, Q s → pairsOk ok (replaceAll m (r0 :: rep') s) = true.
Proof.
  intros Qtail Hnomatch Hmatch Hr0 Hrep.
  apply (replaceAll_scan
           (λ s out, Q s → pairsOk ok out = true)).
  - done.
  - intros a s' len Hm IH HQ. apply Hrep.
    + apply IH. apply drop_tail; [exact Qtail|]. by eapply Qtail.
    + apply replaceAll_head; [apply Hr0|]. by eapply Hmatch.
  - intros a s' Hm IH HQ. cbn [pairsOk]. apply andb_true_iff. split.
    + apply replaceAll_head; [apply Hr0|]. by apply Hnomatch.
    + apply IH. by eapply Qtail.
Qed.

(** *** The three expressions *)

Lemma countWhile_drop_head (p : N → bool) (s : list N) :
  headIs (λ a, negb (p a)) (drop (countWhile p s) s) = true.
Proof.
  induction s as [|a s IH]; [done|]. cbn [countWhile].
  destruct (p a) eqn:Ha; [exact IH|]. cbn. by rewrite Ha.
Qed.

Lemma countWhile_drop_zero (p : N → bool) (s : list N) :
  countWhile p (drop (countWhile p s) s) = 0.
Proof.
  induction s as [|a s IH]; [done|]. cbn [countWhile].
  destruct (p a) eqn:Ha; [exact IH|]. cbn. by rewrite Ha.
Qed.

Lemma countWhile_zero_head (p : N → bool) (s : list N) :
  countWhile p s = 0 → headIs (λ a, negb (p a)) s = true.
Proof. destruct s as [|a s]; [done|]. cbn. by destruct (p a). Qed.

Lemma head_countWhile_zero (p : N → bool) (s : list N) :
  headIs (λ a, negb (p a)) s = true → countWhile p s = 0.
Proof. destruct s as [|a s]; [done|]. cbn. by destruct (p a). Qed.

Lemma space_is_blank (a : N) : isSpace a = true → isBlank a = true.
Proof. unfold isSpace. by intros ->%N.eqb_eq. Qed.

Lemma space_no_break (a : N) : isSpace a = true → isLineBreak a = false.
Proof. unfold isSpace. by intros ->%N.eqb_eq. Qed.

Lemma blank_is_space (a : N) : isBlank a = true → isWhiteSpace a = true.
Proof. unfold isBlank. by intros [? _]%andb_true_iff. Qed.

Lemma break_is_space (a : N) : isLineBreak a = true → isWhiteSpace a = true.
Proof.
  unfold isLineBreak.
  by intros [->%N.eqb_eq| ->%N.eqb_eq]%orb_true_iff.
Qed.

Lemma blanks_Some a s' len :
  blanks (a :: s') = Some len →
  isBlank a = true ∧ pred len = countWhile isBlank s'.
Proof.
  unfold blanks. cbn [countWhile]. destruct (isBlank a); [|done].
  by intros [= <-].
Qed.

Lemma blanks_None a s' : blanks (a :: s') = None → isBlank a = false.
Proof. unfold blanks. cbn [countWhile]. by destruct (isBlank a). Qed.

Lemma thenSpaces_Some n s len :
  thenSpaces n s = Some len →
  len = n + countWhile isSpace s ∧ 0 < countWhile isSpace s.
Proof.
  unfold thenSpaces. destruct (countWhile isSpace s); [done|].
  intros [= <-]. lia.
Qed.

Lemma thenSpaces_None n s :
  thenSpaces n s = None → headIs (λ a, negb (isSpace a)) s = true.
Proof.
  unfold thenSpaces. destruct (countWhile isSpace s) eqn:Hc; [|done].
  intros _. by apply countWhile_zero_head.
Qed.

(** A match of the second expression starts with a line break and ends
    before a character that is not a space. *)
Lemma breakThenSpaces_Some a s' len :
  breakThenSpaces (a :: s') = Some len →
  isLineBreak a = true
  ∧ headIs (λ b, negb (isSpace b)) (drop (pred len) s') = true.
Proof.
  unfold breakThenSpaces, isLineBreak.
  destruct (N.eqb a CR) eqn:Hcr.
  - rewrite orb_true_r. destruct s' as [|b rest].
    + intros [_ Hpos]%thenSpaces_Some. cbn in Hpos. lia.
    + destruct (N.eqb b LF) eqn:Hlf.
      * intros [-> _]%thenSpaces_Some. split; [done|].
        cbn [Nat.add pred skipn]. apply countWhile_drop_head.
      * intros [-> _]%thenSpaces_Some. split; [done|].
        cbn [Nat.add pred]. apply countWhile_drop_head.
  - destruct (N.eqb a LF) eqn:Hlf; [|done].
    intros [-> _]%thenSpaces_Some. split; [done|].
    cbn [Nat.add pred]. apply countWhile_drop_head.
Qed.

(** Where the second expression does not match at a line break, the line
    break is not followed by a space. *)
Lemma breakThenSpaces_None a s' :
  breakThenSpaces (a :: s') = None →
  isLineBreak a = true →
  headIs (λ b, negb (isSpace b)) s' = true.
Proof.
  unfold breakThenSpaces, isLineBreak.
  destruct (N.eqb a CR) eqn:Hcr.
  - intros Hm _. destruct s' as [|b rest]; [done|].
    destruct (N.eqb b LF) eqn:Hlf.
    + apply N.eqb_eq in Hlf as ->. done.
    + by apply thenSpaces_None in Hm.
  - destruct (N.eqb a LF) eqn:Hlf; [|done].
    intros Hm _. by apply thenSpaces_None in Hm.
Qed.

Lemma manyBreaks_Some a s' len :
  manyBreaks (a :: s') = Some len →
  len = countWhile isLineBreak (a :: s') ∧ 3 ≤ len
  ∧ isLineBreak a = true ∧ pred len = countWhile isLineBreak s'.
Proof.
  unfold manyBreaks. destruct (Nat.leb_spec 3 (countWhile isLineBreak (a :: s')))
    as [Hle|Hlt]; [|done].
  intros [= <-]. split; [done|]. split; [done|].
  cbn [countWhile] in Hle |- *. destruct (isLineBreak a); [done|lia].
Qed.

Lemma manyBreaks_None s :
  manyBreaks s = None → countWhile isLineBreak s ≤ 2.
Proof.
  unfold manyBreaks. destruct (Nat.leb_spec 3 (countWhile isLineBreak s)); [done|lia].
Qed.

(** *** After the first replacement *)

Lemma blanks_head s :
  headIs (λ a, negb (isBlank a)) s = true →
  headIs (λ a, negb (isSpace a)) (replaceAll blanks [SP] s) = true.
Proof.
  destruct s as [|a s']; [by simp replaceAll|]. cbn [headIs]. intros Ha.
  assert (Hm : blanks (a :: s') = None).
  { unfold blanks. cbn [countWhile]. by destruct (isBlank a). }
  rewrite (replaceAll_nomatch _ _ _ _ Hm). cbn.
  destruct (isSpace a) eqn:Hsp; [|done].
  apply space_is_blank in Hsp. by rewrite Hsp in Ha.
Qed.

Lemma blanks_noTwoSpaces s : pairsOk noTwoSpaces (replaceAll blanks [SP] s) = true.
Proof.
  apply (replaceAll_scan (λ s out, pairsOk noTwoSpaces out = true)).
  - done.
  - intros a s' len [Ha Hlen]%blanks_Some IH.
    cbn [app].
    cbn [pairsOk]. rewrite IH, andb_true_r.
    eapply headIs_impl; [|apply blanks_head].
    + intros b Hb. unfold noTwoSpaces. by rewrite andb_true_l.
    + rewrite Hlen. apply countWhile_drop_head.
  - intros a s' Ha%blanks_None IH. cbn [pairsOk]. rewrite IH, andb_true_r.
    apply headIs_true. intros b. unfold noTwoSpaces.
    destruct (isSpace a) eqn:Hsp; [|done].
    apply space_is_blank in Hsp. congruence.
Qed.

Lemma blanks_allChars s :
  allChars (λ a, negb (isBlank a) || isSpace a) (replaceAll blanks [SP] s) = true.
Proof.
  apply (replaceAll_scan
    (λ s out, allChars (λ a, negb (isBlank a) || isSpace a) out = true)).
  - done.
  - intros a s' len _ IH. cbn [app].
    cbn [allChars]. by rewrite IH.
  - intros a s' Ha%blanks_None IH. cbn [allChars]. by rewrite Ha, IH.
Qed.

(** *** After the second and the third replacement *)

Lemma prepend_LF ok X :
  pairsOk ok X = true → headIs (ok LF) X = true →
  pairsOk ok ([LF] ++ X) = true.
Proof.
  intros HX Hh. cbn [app].
  cbn [pairsOk]. by rewrite HX, Hh.
Qed.

Lemma prepend_LF_LF ok X :
  ok LF LF = true →
  pairsOk ok X = true → headIs (ok LF) X = true →
  pairsOk ok ([LF; LF] ++ X) = true.
Proof.
  intros Hok HX Hh.
  cbn [app].
  cbn [pairsOk headIs]. by rewrite HX, Hh, Hok.
Qed.

Lemma breaks_noSpaceAfterBreak s :
  pairsOk noSpaceAfterBreak (replaceAll breakThenSpaces [LF] s) = true.
Proof.
  apply (replaceAll_pairsOk noSpaceAfterBreak breakThenSpaces
           LF LF [] (λ _, True)); [done| | | | |done].
  - intros a s' _ Hm. destruct (isLineBreak a) eqn:Ha.
    + eapply headIs_impl; [|by apply (breakThenSpaces_None a)].
      intros b Hb. unfold noSpaceAfterBreak. by rewrite Ha, andb_true_l.
    + apply headIs_true. intros b. unfold noSpaceAfterBreak. by rewrite Ha.
  - intros a s' len _ [_ Hrest]%breakThenSpaces_Some.
    eapply headIs_impl; [|exact Hrest]. intros b Hb.
    unfold noSpaceAfterBreak. by rewrite andb_true_l.
  - intros x. unfold noSpaceAfterBreak. by rewrite andb_false_r.
  - intros X. apply prepend_LF.
Qed.

Lemma breaks_noTwoSpaces s :
  pairsOk noTwoSpaces s = true →
  pairsOk noTwoSpaces (replaceAll breakThenSpaces [LF] s) = true.
Proof.
  apply (replaceAll_pairsOk noTwoSpaces breakThenSpaces
           LF LF [] (λ s, pairsOk noTwoSpaces s = true)).
  - intros a s'. apply pairsOk_tail.
  - intros a s' HQ _. by apply pairsOk_head.
  - intros a s' len _ _. by apply headIs_true.
  - intros x. unfold noTwoSpaces. by rewrite andb_false_r.
  - intros X. apply prepend_LF.
Qed.

Lemma runs_noTwoSpaces s :
  pairsOk noTwoSpaces s = true →
  pairsOk noTwoSpaces (replaceAll manyBreaks [LF; LF] s) = true.
Proof.
  apply (replaceAll_pairsOk noTwoSpaces manyBreaks
           LF LF [LF]
           (λ s, pairsOk noTwoSpaces s = true)).
  - intros a s'. apply pairsOk_tail.
  - intros a s' HQ _. by apply pairsOk_head.
  - intros a s' len _ _. by apply headIs_true.
  - intros x. unfold noTwoSpaces. by rewrite andb_false_r.
  - intros X. by apply prepend_LF_LF.
Qed.

(** After a run of line breaks of a text without space after a line
    break comes no space. *)
Lemma after_breaks s :
  pairsOk noSpaceAfterBreak s = true →
  0 < countWhile isLineBreak s →
  headIs (λ b, negb (isSpace b)) (drop (countWhile isLineBreak s) s) = true.
Proof.
  induction s as [|a s IH]; [cbn; lia|]. intros Hp Hpos. cbn [countWhile] in *.
  destruct (isLineBreak a) eqn:Ha; [|lia]. cbn [skipn].
  destruct (countWhile isLineBreak s) as [|k] eqn:Hk.
  - cbn [skipn]. apply pairsOk_head in Hp.
    eapply headIs_impl; [|exact Hp]. intros b. unfold noSpaceAfterBreak.
    rewrite Ha, andb_true_l. done.
  - apply IH; [by eapply pairsOk_tail|lia].
Qed.

Lemma runs_noSpaceAfterBreak s :
  pairsOk noSpaceAfterBreak s = true →
  pairsOk noSpaceAfterBreak (replaceAll manyBreaks [LF; LF] s) = true.
Proof.
  apply (replaceAll_pairsOk noSpaceAfterBreak manyBreaks
           LF LF [LF]
           (λ s, pairsOk noSpaceAfterBreak s = true)).
  - intros a s'. apply pairsOk_tail.
  - intros a s' HQ _. by apply pairsOk_head.
  - intros a s' len HQ (Hlen & Hthree & Ha & Hpred)%manyBreaks_Some.
    assert (Hrest : headIs (λ b, negb (isSpace b)) (drop (pred len) s') = true).
    { pose proof (after_breaks (a :: s') HQ) as Hafter.
      rewrite <- Hlen in Hafter. destruct len as [|n]; [lia|].
      apply Hafter. lia. }
    eapply headIs_impl; [|exact Hrest]. intros b Hb.
    unfold noSpaceAfterBreak. by rewrite andb_true_l.
  - intros x. unfold noSpaceAfterBreak. by rewrite andb_false_r.
  - intros X. by apply prepend_LF_LF.
Qed.

Lemma runs_count s :
  countWhile isLineBreak (replaceAll manyBreaks [LF; LF] s)
  = min 2 (countWhile isLineBreak s).
Proof.
  apply (replaceAll_scan
    (λ s out, countWhile isLineBreak out = min 2 (countWhile isLineBreak s))).
  - done.
  - intros a s' len (Hlen & Hthree & Ha & Hpred)%manyBreaks_Some IH.
    cbn [app].
    cbn [countWhile]. change (isLineBreak LF) with true. cbn iota.
    rewrite IH, Hpred, countWhile_drop_zero. rewrite Ha, <- Hpred. lia.
  - intros a s' Hm%manyBreaks_None IH. cbn [countWhile] in *.
    destruct (isLineBreak a); [|done]. rewrite IH. lia.
Qed.

Lemma runs_runsOk s :
  runsOk (replaceAll manyBreaks [LF; LF] s) = true.
Proof.
  apply (replaceAll_scan (λ s out, runsOk out = true)).
  - done.
  - intros a s' len (Hlen & Hthree & Ha & Hpred)%manyBreaks_Some IH.
    pose proof (runs_count (drop (pred len) s')) as Hc.
    rewrite Hpred, countWhile_drop_zero in Hc. rewrite <- Hpred in Hc.
    cbn [app].
    cbn [runsOk countWhile]. change (isLineBreak LF) with true. cbn iota.
    rewrite Hc, IH. done.
  - intros a s' Hm IH.
    pose proof (runs_count (a :: s')) as Hc.
    rewrite (replaceAll_nomatch _ _ _ _ Hm) in Hc.
    cbn [runsOk]. rewrite IH, andb_true_r. rewrite Hc.
    apply Nat.leb_le. lia.
Qed.

(** *** Trimming *)

Lemma trimStart_decomp s : ∃ w, s = w ++ trimStart s.
Proof.
  induction s as [|a s [w IH]]; [by exists []|]. cbn [trimStart].
  destruct (isWhiteSpace a).
  - exists (a :: w). cbn [app]. by rewrite <- IH.
  - by exists [].
Qed.

Lemma trimEnd_decomp s : ∃ w, s = trimEnd s ++ w.
Proof.
  unfold trimEnd. destruct (trimStart_decomp (reverse s)) as [w Hw].
  exists (reverse w).
  rewrite <- reverse_app, <- Hw. by rewrite reverse_involutive.
Qed.

Lemma trim_decomp s : ∃ w1 w2, s = w1 ++ trim s ++ w2.
Proof.
  destruct (trimStart_decomp s) as [w1 H1].
  destruct (trimEnd_decomp (trimStart s)) as [w2 H2].
  exists w1, w2. unfold trim. by rewrite <- H2.
Qed.

Lemma trimStart_head s : headIs graphic (trimStart s) = true.
Proof.
  induction s as [|a s IH]; [done|]. cbn [trimStart].
  destruct (isWhiteSpace a) eqn:Ha; [done|]. cbn. unfold graphic. by rewrite Ha.
Qed.

Lemma trim_ends s :
  headIs graphic (trim s) = true
  ∧ headIs graphic (reverse (trim s)) = true.
Proof.
  split.
  - unfold trim. destruct (trimEnd_decomp (trimStart s)) as [w Hw].
    destruct (trimEnd (trimStart s)) as [|a t] eqn:Ht; [done|].
    pose proof (trimStart_head s) as Hh. rewrite Hw in Hh. exact Hh.
  - unfold trim, trimEnd. rewrite reverse_involutive. apply trimStart_head.
Qed.

Lemma countWhile_app_le (p : N → bool) (u v : list N) :
  countWhile p u ≤ countWhile p (u ++ v).
Proof.
  induction u as [|a u IH]; [cbn; lia|].
  cbn [app countWhile].
  destruct (p a); lia.
Qed.

Lemma runsOk_app_r (u v : list N) : runsOk (u ++ v) = true → runsOk v = true.
Proof.
  induction u as [|a u IH]; [done|].
  cbn [app runsOk].
  intros [_ ?]%andb_true_iff. by apply IH.
Qed.

Lemma runsOk_app_l (u v : list N) : runsOk (u ++ v) = true → runsOk u = true.
Proof.
  induction u as [|a u IH]; [done|].
  cbn [app runsOk].
  intros [Hc Hr]%andb_true_iff. rewrite IH by done. rewrite andb_true_r.
  apply Nat.leb_le. apply Nat.leb_le in Hc.
  pose proof (countWhile_app_le isLineBreak (a :: u) v) as Hle.
  cbn [app] in Hle. lia.
Qed.

Lemma clean_normal (input : list N) : normal (cleanUpText input).
Proof.
  unfold cleanUpText.
  set (s1 := replaceAll blanks [SP] input).
  set (s2 := replaceAll breakThenSpaces [LF] s1).
  set (s3 := replaceAll manyBreaks [LF; LF] s2).
  assert (H1 : allChars (λ a, negb (isBlank a) || isSpace a) s3 = true).
  { do 2 (apply replaceAll_allChars; [done|]). apply blanks_allChars. }
  assert (H2 : pairsOk noTwoSpaces s3 = true).
  { apply runs_noTwoSpaces, breaks_noTwoSpaces, blanks_noTwoSpaces. }
  assert (H3 : pairsOk noSpaceAfterBreak s3 = true).
  { apply runs_noSpaceAfterBreak, breaks_noSpaceAfterBreak. }
  assert (H4 : runsOk s3 = true) by apply runs_runsOk.
  destruct (trim_decomp s3) as (w1 & w2 & Hs3).
  rewrite Hs3 in H1, H2, H3, H4.
  destruct (trim_ends s3) as [H5 H6].
  split; [|split; [|split; [|split; [|split]]]]; try done.
  - rewrite !allChars_app in H1.
    by apply andb_true_iff in H1 as [_ [? _]%andb_true_iff].
  - by apply pairsOk_app_r, pairsOk_app_l in H2.
  - by apply pairsOk_app_r, pairsOk_app_l in H3.
  - by apply runsOk_app_r, runsOk_app_l in H4.
Qed.

(** *** A normal text is left as it is *)

Lemma replaceAll_id m rep (Q : list N → Prop) :
  (∀ a s', Q (a :: s') → Q s') →
  (∀ a s', Q (a :: s') → m (a :: s') = None) →
  ∀ s, Q s → replaceAll m rep s = s.
Proof.
  intros Qtail Hnone s. induction s as [|a s' IH]; intros HQ; [by simp replaceAll|].
  rewrite replaceAll_nomatch by (by apply Hnone).
  rewrite IH; [done|]. by eapply Qtail.
Qed.

Lemma blanks_id s :
  allChars (λ a, negb (isBlank a) || isSpace a) s = true →
  pairsOk noTwoSpaces s = true →
  replaceAll blanks [SP] s = s.
Proof.
  induction s as [|a s' IH]; [by simp replaceAll|]. cbn [allChars].
  intros [Ha Hall]%andb_true_iff Hp.
  pose proof (pairsOk_head _ _ _ Hp) as Hh. apply pairsOk_tail in Hp.
  destruct (isBlank a) eqn:Hb.
  - cbn in Ha.
    assert (Hz : countWhile isBlank s' = 0).
    { apply head_countWhile_zero. destruct s' as [|b s'']; [done|]. cbn in *.
      apply andb_true_iff in Hall as [Hbb _]. unfold noTwoSpaces in Hh.
      rewrite Ha in Hh. cbn in Hh. destruct (isSpace b); [done|].
      by rewrite orb_false_r in Hbb. }
    assert (Hm : blanks (a :: s') = Some 1).
    { unfold blanks. cbn [countWhile]. by rewrite Hb, Hz. }
    rewrite (replaceAll_match _ _ _ _ _ Hm). cbn [pred]. rewrite drop_0.
    rewrite IH by done. unfold isSpace in Ha. by apply N.eqb_eq in Ha as ->.
  - assert (Hm : blanks (a :: s') = None).
    { unfold blanks. cbn [countWhile]. by rewrite Hb. }
    rewrite (replaceAll_nomatch _ _ _ _ Hm). by rewrite IH.
Qed.

Lemma thenSpaces_head_None n s :
  headIs (λ a, negb (isSpace a)) s = true → thenSpaces n s = None.
Proof. intros Hh. unfold thenSpaces. by rewrite head_countWhile_zero. Qed.

Lemma breakThenSpaces_normal a s' :
  pairsOk noSpaceAfterBreak (a :: s') = true →
  breakThenSpaces (a :: s') = None.
Proof.
  intros Hp. pose proof (pairsOk_head _ _ _ Hp) as Hh. apply pairsOk_tail in Hp.
  assert (Hafter : ∀ c t, isLineBreak c = true →
            headIs (noSpaceAfterBreak c) t = true →
            headIs (λ b, negb (isSpace b)) t = true).
  { intros c t Hc. apply headIs_impl. intros b. unfold noSpaceAfterBreak.
    by rewrite Hc, andb_true_l. }
  unfold breakThenSpaces.
  destruct (N.eqb_spec a CR) as [->|_].
  - destruct s' as [|b rest]; [done|].
    destruct (N.eqb_spec b LF) as [->|_].
    + apply thenSpaces_head_None. apply (Hafter LF); [done|].
      by apply pairsOk_head in Hp.
    + apply thenSpaces_head_None. by apply (Hafter CR).
  - destruct (N.eqb_spec a LF) as [->|_]; [|done].
    apply thenSpaces_head_None. by apply (Hafter LF).
Qed.

Lemma manyBreaks_normal a s' :
  runsOk (a :: s') = true → manyBreaks (a :: s') = None.
Proof.
  cbn [runsOk]. intros [Hc%Nat.leb_le _]%andb_true_iff. unfold manyBreaks.
  destruct (Nat.leb_spec 3 (countWhile isLineBreak (a :: s'))); [lia|done].
Qed.

Lemma trimStart_id s : headIs graphic s = true → trimStart s = s.
Proof.
  destruct s as [|a s]; [done|]. cbn. unfold graphic.
  by destruct (isWhiteSpace a).
Qed.

Lemma trim_id s :
  headIs graphic s = true → headIs graphic (reverse s) = true →
  trim s = s.
Proof.
  intros Hs Hr. unfold trim, trimEnd.
  by rewrite (trimStart_id s), (trimStart_id (reverse s)), reverse_involutive.
Qed.

Lemma clean_id s : normal s → cleanUpText s = s.
Proof.
  intros (H1 & H2 & H3 & H4 & H5 & H6). unfold cleanUpText.
  rewrite blanks_id by done.
  rewrite (replaceAll_id breakThenSpaces [LF]
             (λ s, pairsOk noSpaceAfterBreak s = true));
    [|intros a s'; apply pairsOk_tail|intros a s'; apply breakThenSpaces_normal
     |done].
  rewrite (replaceAll_id manyBreaks [LF; LF] (λ s, runsOk s = true));
    [|by intros a s' [_ ?]%andb_true_iff|intros a s'; apply manyBreaks_normal
     |done].
  by apply trim_id.
Qed.

(** X20.  Whatever the input, the text that [cleanUpText] returns is
    normal: of the white space characters of the engine (the class [\s],
    no-break space, line separators and byte order mark included) it has
    only spaces, CR and LF, and it has no two spaces in a row, no space
    right after a line break, no three line breaks in a row, and no
    white space at either end.  A normal text is returned as it is, so
    that cleaning a cleaned text changes nothing. *)
Theorem cleanUpText_normal_form (input : list N) :
  normal (cleanUpText input)
  ∧ (∀ s, normal s → cleanUpText s = s)
  ∧ cleanUpText (cleanUpText input) = cleanUpText input.
Proof.
  split; [apply clean_normal|]. split; [apply clean_id|].
  apply clean_id, clean_normal.
Qed.

(** With tabs, CR LF pairs and runs of line breaks; the space before a
    line break stays. *)
Example cleanUpText_sample :
  cleanUpText (units "  a" ++ [9; 9]%N ++ units " b " ++ [LF] ++ units "   c"
               ++ [CR; LF; CR; LF] ++ units " d" ++ [LF; LF; LF; LF]
               ++ units "e " ++ [CR] ++ units " f ")
  = units "a b " ++ [LF] ++ units "c" ++ [LF; LF] ++ units "d" ++ [LF; LF]
    ++ units "e " ++ [LF] ++ units "f".
Proof. reflexivity. Qed.

(** With no-break spaces, a line separator and a byte order mark. *)
Example cleanUpText_unicode :
  cleanUpText (units "a" ++ [160; 160]%N ++ units "b" ++ [8232; 65279]%N)
  = units "a b".
Proof. reflexivity. Qed.

End CleanFacts.


(** ** Reading the vectors back *)

Section ReadBackFacts.
Import Pipeline Chroma VectorStore.
Implicit Types collection : gmap string VectorRecord.

Lemma metadatas_sourceId source_id (docs : list EmbedderDocument) i m :
  metadatas source_id docs !! i = Some m → sourceId m = source_id.
Proof.
  intros Hm. apply list_elem_of_lookup_2 in Hm. unfold metadatas in Hm.
  apply list_elem_of_bind in Hm as (doc & Hm & _).
  apply elem_of_lookup_imap in Hm as (index & seg & -> & _). done.
Qed.

Lemma records_texts ids embeddings metadatas vectorDocs :
  length embeddings = length ids →
  length metadatas = length ids →
  length vectorDocs = length ids →
  (λ r, (r.1.2, r.2)) <$> records ids embeddings metadatas vectorDocs
  = zip metadatas vectorDocs.
Proof.
  unfold records. revert embeddings metadatas vectorDocs.
  induction ids as [|k ids IH]; intros [|e es] [|m ms] [|d ds] He Hm Hv;
    try done.
  cbn. f_equal. apply IH; cbn in *; lia.
Qed.

Lemma stored_records source_id (docs : list EmbedderDocument) collection :
  NoDup (doc_uri <$> docs) →
  map_to_list
    (filter (λ kv, sourceId (vec_metadata kv.2) = source_id)
       (replaceVectors source_id docs collection))
  ≡ₚ (λ r, (r.1.1.1, mkRecord r.1.1.2 r.1.2 r.2)) <$>
       records (ids docs) (embeddings docs) (metadatas source_id docs)
         (vectorDocs docs).
Proof.
  intros Huris.
  assert (Hkeys : (λ r, r.1.1.1) <$> records (ids docs) (embeddings docs)
                    (metadatas source_id docs) (vectorDocs docs) = ids docs).
  { apply records_keys.
    - by rewrite embeddings_length, ids_length.
    - by rewrite (metadatas_length source_id), ids_length.
    - by rewrite vectorDocs_length, ids_length. }
  apply NoDup_Permutation.
  - apply NoDup_map_to_list.
  - apply (NoDup_fmap_1 fst). rewrite <- list_fmap_compose.
    change (fst ∘ _) with (λ r : string * list float * VectorMetadata * string, r.1.1.1).
    rewrite Hkeys. by apply ids_NoDup.
  - intros [k record]. rewrite elem_of_map_to_list, map_lookup_filter_Some.
    rewrite (replaceVectors_lookup _ _ _ _ _ Huris). cbn [snd].
    rewrite list_elem_of_fmap. split.
    + intros [[(i & e & m & d & Hk & He & Hm & Hd & ->)|(_ & _ & Hne)] Hsrc];
        [|done].
      exists (k, e, m, d). split; [done|]. apply records_elem. by exists i.
    + intros ([[[k' e] m] d] & [= -> ->] & Hr).
      apply records_elem in Hr as (i & Hk & He & Hm & Hd). cbn in *.
      split; [|by eapply metadatas_sourceId].
      left. by exists i, e, m, d.
Qed.

(** X21.  With pairwise distinct document uris, what [getDocuments]
    reads for the source, from the collection that the job wrote and
    with a limit that covers the segments, is what the job wrote and
    nothing of an earlier run: the metadata and text of every segment,
    once each. *)
Theorem written_vectors_read_back (source_id : string)
    (docs : list EmbedderDocument) collection (limit : nat) :
  NoDup (doc_uri <$> docs) →
  length (ids docs) ≤ limit →
  getDocuments source_id 0 limit (replaceVectors source_id docs collection)
  ≡ₚ zip (metadatas source_id docs) (vectorDocs docs).
Proof.
  intros Huris Hlimit. unfold getDocuments. rewrite drop_0.
  pose proof (stored_records source_id docs collection Huris) as Hperm.
  rewrite take_ge.
  2:{ rewrite Hperm, length_fmap. unfold records. rewrite !length_zip_with.
      lia. }
  rewrite Hperm, <- list_fmap_compose.
  change (_ ∘ _) with (λ r : string * list float * VectorMetadata * string, (r.1.2, r.2)).
  rewrite records_texts; [done| | |].
  - by rewrite embeddings_length, ids_length.
  - by rewrite (metadatas_length source_id), ids_length.
  - by rewrite vectorDocs_length, ids_length.
Qed.

End ReadBackFacts.

(** The two sample documents read back: the record of the earlier run
    is not among them. *)
Lemma written_vectors_read_back_witness :
  VectorStore.getDocuments "s1" 0 10 (Chroma.replaceVectors "s1" smallDocs oldVectors)
  ≡ₚ [ (Pipeline.mkMetadata "s1" "https://site/a" "A" 0 1, "a0");
       (Pipeline.mkMetadata "s1" "https://site/a" "A" 1 1, "a1");
       (Pipeline.mkMetadata "s1" "https://site/b" "B" 0 1, "b0") ].
Proof.
  apply (written_vectors_read_back "s1" smallDocs oldVectors 10).
  - apply (bool_decide_unpack _). vm_compute. exact I.
  - vm_compute. lia.
Defined.

(** ** [extractDataWithXPath] *)

Section ExtractFacts.
Context `{XPath}.
Import Clean Shape.

Lemma trimStart_blank s :
  allChars isWhiteSpace s = true → trimStart s = [].
Proof.
  induction s as [|a s IH]; [done|]. cbn.
  intros [-> Hs]%andb_true_iff. by apply IH.
Qed.

Lemma clean_blank s :
  allChars isWhiteSpace s = true → cleanUpText s = [].
Proof.
  intros Hs. unfold cleanUpText, trim.
  rewrite trimStart_blank; [done|].
  do 3 (apply replaceAll_allChars; [done|]). done.
Qed.

(** X22.  Every string that [extractDataWithXPath] returns is in normal
    form.  For a selection of nodes the strings are the cleaned texts of
    the nodes whose text is not empty, so that there are no more strings
    than nodes; the test for an empty text comes before the cleaning: a
    node whose text is white space only gives an empty string. *)
Theorem extract_texts (normalizedHtml xpathExpression : string)
    (texts : list (list N)) :
  Extract.extractDataWithXPath normalizedHtml xpathExpression = Some texts →
  Forall normal texts
  ∧ ∀ nodes, select xpathExpression normalizedHtml = Nodes nodes →
      length texts ≤ length nodes
      ∧ (∀ t, t ∈ texts ↔
           ∃ text, Some text ∈ nodes ∧ text ≠ [] ∧ t = cleanUpText text)
      ∧ ∀ text, Some text ∈ nodes → text ≠ [] →
          allChars isWhiteSpace text = true → [] ∈ texts.
Proof.
  unfold Extract.extractDataWithXPath.
  destruct (Extract.falsy _); [done|]. intros [= <-]. split.
  { apply Forall_forall. intros t (text & -> & _)%list_elem_of_fmap.
    apply clean_normal. }
  intros nodes ->. cbn [Extract.results].
  assert (Hin : ∀ t, t ∈ cleanUpText <$> omap Extract.textContent nodes ↔
            ∃ text, Some text ∈ nodes ∧ text ≠ [] ∧ t = cleanUpText text).
  { intros t. rewrite list_elem_of_fmap. split.
    - intros (text & -> & Htext). exists text.
      apply list_elem_of_omap in Htext as ([[|c text']|] & Hnode & Hsome);
        [done| |done].
      cbn in Hsome. injection Hsome as <-. done.
    - intros (text & Hnode & Hne & ->). exists text. split; [done|].
      apply list_elem_of_omap. exists (Some text). split; [done|].
      by destruct text. }
  split; [|split; [exact Hin|]].
  - rewrite length_fmap. clear Hin.
    induction nodes as [|node nodes IH]; [done|]. cbn.
    destruct (Extract.textContent node); cbn; lia.
  - intros text Hnode Hne Hblank. apply Hin. exists text.
    by rewrite clean_blank.
Qed.

End ExtractFacts.

(** A selection of four nodes: the text of the first has no-break
    spaces, the last is white space only. *)
Lemma extract_texts_witness :
  Forall Shape.normal [Clean.units "Slots hold attachments."; []]
  ∧ [] ∈ [Clean.units "Slots hold attachments."; []].
Proof.
  destruct (@extract_texts sampleXPath "<p/>" "//p"
              [Clean.units "Slots hold attachments."; []] eq_refl)
    as [Hnormal Hnodes].
  split; [exact Hnormal|].
  destruct (Hnodes _ eq_refl) as (_ & _ & Hblank).
  apply (Hblank [Clean.SP; 160%N]); [|done|reflexivity].
  apply list_elem_of_further, list_elem_of_further, list_elem_of_further,
    list_elem_of_here.
Defined.

(** ** The Flarum extractor: the uris of a forum *)

Section FlarumForumFacts.
Context `{Tokenizer} `{TextSplitter} `{Js.Casing}.
Import Flarum.

(** X23.  The forum url is used with ["/d/"] at its end, whether the
    source has it there or not, so that a source gives the same
    documents as the source with that base as forum url.  The uri of
    every document is the base, the id of its discussion, ["/"] and a
    post number between 1 and the number of posts of the discussion;
    its title is the title of the discussion. *)
Theorem flarum_uris (source : FlarumSource) (discussions : list FlarumDiscussion) :
  let base :=
    if Js.endsWith "/d/" (forumUrl source) then forumUrl source
    else forumUrl source +:+ "/d/" in
  Js.endsWith "/d/" base = true
  ∧ docs (mkSource (_id source) (apiUrl source) base (staff source)) discussions
    = docs source discussions
  ∧ ∀ doc, doc ∈ docs source discussions →
      ∃ discussion posts n,
        discussion ∈ discussions
        ∧ Flarum.posts discussion = Some posts
        ∧ 1 ≤ n ≤ length posts
        ∧ doc_uri doc = (base +:+ discussionId discussion) +:+ "/" +:+ pretty n
        ∧ doc_title doc = title discussion.
Proof.
  intros base.
  assert (Hbase : Js.endsWith "/d/" base = true).
  { unfold base. destruct (Js.endsWith "/d/" (forumUrl source)) eqn:Hends;
      [done|apply endsWith_app]. }
  split; [done|]. split.
  - unfold docs. cbn [forumUrl staff]. by rewrite Hbase.
  - intros doc Hdoc. unfold docs in Hdoc. fold base in Hdoc.
    apply list_elem_of_bind in Hdoc as (discussion & Hdoc & Hdiscussion).
    destruct (Flarum.posts discussion) as [posts|] eqn:Hposts;
      [|by apply elem_of_nil in Hdoc].
    rewrite postsLoop_filter in Hdoc.
    apply elem_of_lookup_imap in Hdoc as (j & post & -> & Hj).
    exists discussion, posts, (1 + j). split; [done|]. split; [done|].
    split; [|done].
    apply lookup_lt_Some in Hj.
    pose proof (length_filter (λ post, survives
                  (list_to_set (Js.toLowerCase <$> staff source)) post = true)
                  posts).
    lia.
Qed.

End FlarumForumFacts.
